(** * Abbreviation lookup: a model of [abbr.py] and its properties

    The development embeds the [Document] class of [abbr.py]:
    the tag stripper [cleanup], the candidate extractor [find_abbr],
    the database search [search_database] and the selector [get_top].

    The three regular expressions of the module are given as syntax
    trees and run by a backtracking matcher that follows the
    behaviour of the [re] module on 8-bit strings (the module reads
    the archive member and the database file as byte strings, so
    [\d], [\w] and case folding are the ASCII ones).

    [tools.plurals], [parsers.adam], the archive and the file system
    are outside the module and are parameters of the model, and so is
    the order in which a set is listed.  Methods that touch [self]
    are state transformers that return or raise. *)

From Stdlib Require Import Ascii.
From stdpp Require Import base list gmap strings.

Local Open Scope char_scope.
Local Open Scope list_scope.

(** ** Strings *)

(** A Python byte string: a list of 8-bit characters. *)
Abbreviation str := (list ascii).

(** String literals are written [s "..."]. *)
Fixpoint s (x : string) : str :=
  match x with
  | EmptyString => []
  | String c x' => c :: s x'
  end.

Module Chr.

Definition nl : ascii := "010".
Definition tab : ascii := "009".
Definition lt : ascii := "<".
Definition gt : ascii := ">".
Definition lpar : ascii := "(".
Definition rpar : ascii := ")".
Definition space : ascii := " ".

Definition code (c : ascii) : nat := nat_of_ascii c.

Definition between (lo hi c : ascii) : bool :=
  (code lo <=? code c)%nat && (code c <=? code hi)%nat.

Definition eqb (a b : ascii) : bool := Ascii.eqb a b.

(** [\d] on byte strings. *)
Definition is_digit (c : ascii) : bool := between "0" "9" c.

Definition is_upper (c : ascii) : bool := between "A" "Z" c.
Definition is_lower (c : ascii) : bool := between "a" "z" c.
Definition is_alpha (c : ascii) : bool := is_upper c || is_lower c.

(** [\w] on byte strings: [[a-zA-Z0-9_]]. *)
Definition is_word (c : ascii) : bool :=
  is_alpha c || is_digit c || eqb c "_".

(** The case folding used under [re.IGNORECASE]. *)
Definition lower (c : ascii) : ascii :=
  if is_upper c then ascii_of_nat (code c + 32) else c.

End Chr.

(** ** Regular expressions *)

Module Re.

(** The part of the pattern language that [abbr.py] uses. *)
Inductive regex : Type :=
| Eps                                  (* the empty pattern *)
| Lit (c : ascii)                      (* a character, or an escape like [\(] [\n] [\t] *)
| Dot                                  (* [.] *)
| Digit                                (* [\d] *)
| Word                                 (* [\w] *)
| Range (lo hi : ascii)                (* [[lo-hi]] *)
| Bol                                  (* [^] *)
| Seq (r1 r2 : regex)
| Alt (r1 r2 : regex)                  (* [r1|r2] *)
| Star (greedy : bool) (r : regex)     (* [r*] when greedy, [r*?] otherwise *)
| Group (r : regex).                   (* [(r)] and [(?P<name>r)] *)

(** A run of literal characters. *)
Fixpoint lits (x : str) : regex :=
  match x with
  | [] => Eps
  | c :: x' => Seq (Lit c) (lits x')
  end.

(** A pattern read left to right. *)
Fixpoint seq (rs : list regex) : regex :=
  match rs with
  | [] => Eps
  | r :: rs' => Seq r (seq rs')
  end.

Fixpoint has_group (r : regex) : bool :=
  match r with
  | Group _ => true
  | Seq r1 r2 | Alt r1 r2 => has_group r1 || has_group r2
  | Star _ r => has_group r
  | _ => false
  end.

Record flags : Type := Flags {
  IGNORECASE : bool;
  MULTILINE : bool;
  DOTALL : bool
}.

Definition no_flags : flags := Flags false false false.

(** The position of the matcher in the subject: the character just
    before it (if any), the text still to read, and the text captured
    by the group so far. *)
Record cursor : Type := Cursor {
  prev : option ascii;
  rest : str;
  grp : option str
}.

Definition start (p : option ascii) (x : str) : cursor := Cursor p x None.

(** One character read. *)
Definition advance (c : ascii) (x : str) (cu : cursor) : cursor :=
  Cursor (Some c) x (grp cu).

(** The text read between two positions of one scan. *)
Definition consumed (from to : cursor) : str :=
  take (length (rest from) - length (rest to)) (rest from).

Definition set_grp (g : str) (cu : cursor) : cursor :=
  Cursor (prev cu) (rest cu) (Some g).

Definition lit_test (fl : flags) (c x : ascii) : bool :=
  if IGNORECASE fl then Chr.eqb (Chr.lower x) (Chr.lower c) else Chr.eqb x c.

Definition dot_test (fl : flags) (x : ascii) : bool :=
  DOTALL fl || negb (Chr.eqb x Chr.nl).

(** Under [IGNORECASE] the bounds of a range are folded when the
    pattern is compiled and the subject character when it is read. *)
Definition range_test (fl : flags) (lo hi x : ascii) : bool :=
  if IGNORECASE fl
  then Chr.between (Chr.lower lo) (Chr.lower hi) (Chr.lower x)
  else Chr.between lo hi x.

Definition at_bol (fl : flags) (cu : cursor) : bool :=
  match prev cu with
  | None => true
  | Some c => MULTILINE fl && Chr.eqb c Chr.nl
  end.

Definition orelse {A} (a : option A) (b : option A) : option A :=
  match a with
  | Some x => Some x
  | None => b
  end.

(** Reading one character that passes [test]. *)
Definition one (test : ascii → bool) (cu : cursor)
    (k : cursor → option cursor) : option cursor :=
  match rest cu with
  | c :: x => if test c then k (advance c x cu) else None
  | [] => None
  end.

(** Repetition.  An iteration that reads nothing is cut off, which is
    how the engine guarantees progress; the fuel is the length of the
    text still to read, so it is never exhausted before the text. *)
Fixpoint repeat_ (body : cursor → (cursor → option cursor) → option cursor)
    (greedy : bool) (fuel : nat) (cu : cursor)
    (k : cursor → option cursor) : option cursor :=
  let more :=
    match fuel with
    | O => None
    | S fuel' =>
        body cu (λ cu',
          if (length (rest cu') <? length (rest cu))%nat
          then repeat_ body greedy fuel' cu' k
          else None)
    end in
  if greedy then orelse more (k cu) else orelse (k cu) more.

(** The backtracking matcher, in continuation-passing style: [k] is
    what remains of the pattern, [None] means backtrack. *)
Fixpoint exec (fl : flags) (r : regex) (cu : cursor)
    (k : cursor → option cursor) : option cursor :=
  match r with
  | Eps => k cu
  | Lit c => one (lit_test fl c) cu k
  | Dot => one (dot_test fl) cu k
  | Digit => one Chr.is_digit cu k
  | Word => one Chr.is_word cu k
  | Range lo hi => one (range_test fl lo hi) cu k
  | Bol => if at_bol fl cu then k cu else None
  | Seq r1 r2 => exec fl r1 cu (λ cu', exec fl r2 cu' k)
  | Alt r1 r2 => orelse (exec fl r1 cu k) (exec fl r2 cu k)
  | Star greedy r' => repeat_ (exec fl r') greedy (length (rest cu)) cu k
  | Group r' => exec fl r' cu (λ cu', k (set_grp (consumed cu cu') cu'))
  end.

(** A match attempt anchored at one position. *)
Definition match_at (fl : flags) (r : regex) (p : option ascii) (x : str)
    : option cursor :=
  exec fl r (start p x) Some.

(** The subject cut into the matches found from left to right and the
    characters between them. *)
Inductive piece : Type :=
| Gap (c : ascii)
| Hit (whole : str) (g : option str).

(** [skip] counts the characters of the last match still to pass. *)
Fixpoint scan (fl : flags) (r : regex) (p : option ascii) (x : str)
    (skip : nat) : list piece :=
  match x with
  | [] =>
      match skip, match_at fl r p [] with
      | O, Some e => [Hit [] (grp e)]
      | _, _ => []
      end
  | c :: x' =>
      match skip with
      | S n => scan fl r (Some c) x' n
      | O =>
          match match_at fl r p x with
          | Some e =>
              match length x - length (rest e) with
              | O => Hit [] (grp e) :: Gap c :: scan fl r (Some c) x' 0
              | S n => Hit (take (S n) x) (grp e) :: scan fl r (Some c) x' n
              end
          | None => Gap c :: scan fl r (Some c) x' 0
          end
      end
  end.

Definition hit_value (grouped : bool) (pc : piece) : list str :=
  match pc with
  | Gap _ => []
  | Hit whole g => [if grouped then default [] g else whole]
  end.

(** [re.findall]: the group of each match when the pattern has one,
    the whole match otherwise. *)
Definition findall (fl : flags) (r : regex) (x : str) : list str :=
  scan fl r None x 0 ≫= hit_value (has_group r).

Definition sub_piece (repl : str) (pc : piece) : str :=
  match pc with
  | Gap c => [c]
  | Hit _ _ => repl
  end.

(** [re.sub] with a replacement free of back-references. *)
Definition sub (fl : flags) (r : regex) (repl : str) (x : str) : str :=
  scan fl r None x 0 ≫= sub_piece repl.

End Re.

Import Re.

(** ** Exceptions and the object state *)

Inductive exn : Type :=
| KeyError (key : str)
| AttributeError (attr : string)
| IndexError
| IOError (path : str)
| BadZipfile.

Inductive outcome (A : Type) : Type :=
| Return (a : A)
| Raise (e : exn).
Arguments Return {A} a.
Arguments Raise {A} e.

Definition raised {A} (o : outcome A) : Prop := ∃ e, o = Raise e.

(** ** The patterns of [abbr.py] *)

(** The pattern of [cleanup]: a [<], then as few characters as
    possible, each read by the group [(.|\n)], then a [>]. *)
Definition tag_pattern : regex :=
  seq [Lit Chr.lt; Star false (Group (Alt Dot (Lit Chr.nl))); Lit Chr.gt].

(** The pattern of [find_abbr]: an escaped opening parenthesis, the
    group [abb] made of [\d*], [[a-z]] and [\w*], and an escaped
    closing parenthesis; compiled with DOTALL, IGNORECASE and
    MULTILINE. *)
Definition abbrs : regex :=
  seq [Lit Chr.lpar;
       Group (seq [Star true Digit; Range "a" "z"; Star true Word]);
       Lit Chr.rpar].

Definition abbrs_flags : flags := Flags true true true.

(** The two search strings of [search_database] with the candidate
    substituted for [%s]: [^%s.*?\n] and [^%s] + delimiter + [.*?\n].
    The candidate is pasted into the pattern text as it is; a
    candidate made of word characters, as the extractor's pattern
    yields, reads there as a run of literals, which is what [lits]
    gives. *)
Definition search_string_permissive (abbr : str) : regex :=
  seq [Bol; lits abbr; Star false Dot; Lit Chr.nl].

Definition search_string_strict (delimiter : regex) (abbr : str) : regex :=
  seq [Bol; lits abbr; delimiter; Star false Dot; Lit Chr.nl].

(** [re.MULTILINE|re.IGNORECASE] *)
Definition search_flags : flags := Flags true true false.

(** The search string of a candidate under each policy when the
    delimiter is the one of the [adam] format, the escape [\t]. *)
Definition search_string (is_permissive : bool) (abbr : str) : regex :=
  if is_permissive then search_string_permissive abbr
  else search_string_strict (Lit Chr.tab) abbr.

(** ** The class [Document] *)

(** [list(set(xs))]: the distinct elements of [xs], in the order in
    which the interpreter walks the hash table of the set.  That order
    is not fixed by the language; it is a parameter, and all that is
    known of it is that it lists each element of [xs] once. *)
Record set_order : Type := SetOrder {
  list_set : list str → list str;
  list_set_NoDup : ∀ xs, NoDup (list_set xs);
  list_set_elem : ∀ xs x, x ∈ list_set xs ↔ x ∈ xs
}.

Section Document.

(** The entries that a scoring engine returns: a score and the
    structured fields. *)
Context {score fields : Type}.

Abbreviation entry := (score * fields)%type.

(** [tools.plurals] and [parsers.adam] are imported by the module and
    are not part of it; [order] is how the interpreter lists a set. *)
Variable plurals : str → list str.
Variable order : set_order.
Variable adam : list str → list entry.

(** The outside world: what [zipfile.ZipFile(path).read] returns or
    raises for the member [word/document.xml] of the archive at a path
    ([IOError] for a path that cannot be opened, [BadZipfile] for a
    file that is no archive, [KeyError] for an archive without the
    member), and the text of the file at a path. *)
Variable archive : str → outcome str.
Variable file : str → option str.

Record descriptor : Type := Descriptor {
  engine : list str → list entry;
  delimiter : regex
}.

Record Document : Type := mkDocument {
  doc : str;
  database : str;
  permissive : bool;
  db_type : str;
  content : str;
  parsers : gmap str descriptor;
  abbreviations : option str   (* unset until [import_database] runs *)
}.

(** A method body: it reads and writes [self] and returns or raises. *)
Definition M (A : Type) : Type := Document → outcome A * Document.

#[local] Instance M_ret : MRet M := λ A a self, (Return a, self).
#[local] Instance M_bind : MBind M := λ A B f m self,
  match m self with
  | (Return a, self') => f a self'
  | (Raise e, self') => (Raise e, self')
  end.

Definition throw {A} (e : exn) : M A := λ self, (Raise e, self).

(** [self.f] for an attribute that is always set. *)
Definition attr {A} (f : Document → A) : M A := λ self, (Return (f self), self).

(** [self.abbreviations] *)
Definition attr_abbreviations : M str := λ self,
  match abbreviations self with
  | Some x => (Return x, self)
  | None => (Raise (AttributeError "abbreviations"), self)
  end.

(** [self.abbreviations = x] *)
Definition set_abbreviations (x : str) : M unit := λ self,
  (Return tt,
   mkDocument (doc self) (database self) (permissive self) (db_type self)
     (content self) (parsers self) (Some x)).

(** [d[key]] *)
Definition subscript {V} (d : gmap str V) (key : str) : M V :=
  match d !! key with
  | Some v => mret v
  | None => throw (KeyError key)
  end.

(** [for x in xs: acc = body(x, acc)] *)
Fixpoint for_ {A S} (xs : list A) (body : A → S → M S) (acc : S) : M S :=
  match xs with
  | [] => mret acc
  | x :: xs' => acc' ← body x acc; for_ xs' body acc'
  end.

Definition opener (doc_file : str) : outcome str :=
  archive doc_file.

Definition cleanup (data : str) : str :=
  sub no_flags tag_pattern (s " ") data.

Definition read (doc_file : str) : outcome str :=
  match opener doc_file with
  | Return xml_content => Return (cleanup xml_content)
  | Raise e => Raise e
  end.

Definition __init__ (doc_file db_file db_type : str) (permissive : bool)
    : outcome Document :=
  match read doc_file with
  | Return content =>
      Return (mkDocument doc_file db_file permissive db_type content
                {[ s "adam" := Descriptor adam (Lit Chr.tab) ]} None)
  | Raise e => Raise e
  end.

(** [list(set(chain))] *)
Definition find_abbr (self : Document) : list str :=
  list_set order (findall abbrs_flags abbrs (content self) ≫= plurals).

Definition import_database : M unit :=
  path ← attr database;
  match file path with
  | Some text => set_abbreviations text
  | None => throw (IOError path)
  end.

Definition search_database : M (gmap str (list entry)) :=
  candidates ← attr find_abbr;
  for_ candidates (λ (abbr : str) (matches : gmap str (list entry)),
    is_permissive ← attr permissive;
    search_string ←
      (if is_permissive : bool
       then mret search_string_permissive
       else registry ← attr parsers;
            key ← attr db_type;
            d ← subscript registry key;
            mret (search_string_strict (delimiter d))) : M (str → regex);
    text ← attr_abbreviations;
    let results := findall search_flags (search_string abbr) text in
    registry ← attr parsers;
    key ← attr db_type;
    d ← subscript registry key;
    mret (<[abbr := engine d results]> matches)) ∅.

Definition get_top (abbr_match : list entry) : outcome fields :=
  match abbr_match with
  | e :: _ => Return e.2
  | [] => Raise IndexError
  end.

(** *** The loop of [search_database], round by round *)

Fixpoint rounds {A S} (f : A → S → outcome S) (xs : list A) (acc : S) : outcome S :=
  match xs with
  | [] => Return acc
  | x :: xs' =>
      match f x acc with
      | Return acc' => rounds f xs' acc'
      | Raise e => Raise e
      end
  end.

(** What one round of the loop of [search_database] does to [matches]. *)
Definition iteration (self : Document) (abbr : str) (matches : gmap str (list entry))
    : outcome (gmap str (list entry)) :=
  if permissive self then
    match abbreviations self, parsers self !! db_type self with
    | None, _ => Raise (AttributeError "abbreviations")
    | Some _, None => Raise (KeyError (db_type self))
    | Some text, Some d =>
        Return (<[abbr := engine d (findall search_flags (search_string_permissive abbr) text)]> matches)
    end
  else
    match parsers self !! db_type self, abbreviations self with
    | None, _ => Raise (KeyError (db_type self))
    | Some _, None => Raise (AttributeError "abbreviations")
    | Some d, Some text =>
        Return (<[abbr := engine d (findall search_flags (search_string_strict (delimiter d) abbr) text)]> matches)
    end.

End Document.

(** ** Vocabulary of the statements *)

(** The text that follows the first occurrence of [c], if there is one. *)
Fixpoint after (c : ascii) (x : str) : option str :=
  match x with
  | [] => None
  | y :: x' => if Chr.eqb y c then Some x' else after c x'
  end.

(** The longest leading run of characters that pass [test], and what
    follows it. *)
Fixpoint span (test : ascii → bool) (x : str) : str * str :=
  match x with
  | [] => ([], [])
  | c :: x' =>
      if test c then ((c :: (span test x').1), (span test x').2)
      else ([], x)
  end.

(** The character before a position, after [a] has been read. *)
Definition prev_after (p : option ascii) (a : str) : option ascii :=
  match last a with
  | Some c => Some c
  | None => p
  end.

(** Equality of characters up to ASCII case. *)
Definition ci_eq (a b : ascii) : bool := Chr.eqb (Chr.lower a) (Chr.lower b).

(** [strip_ci C x]: what follows [C] in [x] when [x] begins with [C]
    up to case. *)
Fixpoint strip_ci (C x : str) : option str :=
  match C with
  | [] => Some x
  | c :: C' =>
      match x with
      | y :: x' => if ci_eq y c then strip_ci C' x' else None
      | [] => None
      end
  end.

(** [x] begins with [C], case-insensitively. *)
Definition begins_ci (C x : str) : bool := bool_decide (is_Some (strip_ci C x)).

(** The lines of a text that end with a newline, without that newline. *)
Fixpoint terminated_lines (x : str) : list str :=
  match x with
  | [] => []
  | c :: x' =>
      if Chr.eqb c Chr.nl then [] :: terminated_lines x'
      else match terminated_lines x' with
           | [] => []
           | l :: ls => (c :: l) :: ls
           end
  end.


(** What a line must begin with under each policy. *)
Definition line_key (is_permissive : bool) (C : str) : str :=
  if is_permissive then C else C ++ [Chr.tab].

(** The newline-terminated lines that begin with the key, each with
    its newline, in the order of the text. *)
Definition matched_lines (is_permissive : bool) (C db : str) : list str :=
  (λ l, l ++ [Chr.nl]) <$>
    filter (λ l, begins_ci (line_key is_permissive C) l = true) (terminated_lines db).

(** Optional digits, then a letter, then word characters. *)
Definition abbr_shape (X : str) : Prop :=
  ∃ ds a ws, X = ds ++ a :: ws ∧
    Forall (λ c, Chr.is_digit c = true) ds ∧
    Chr.is_alpha a = true ∧
    Forall (λ c, Chr.is_word c = true) ws.

Definition has_letter (X : str) : Prop := Exists (λ c, Chr.is_alpha c = true) X.
Definition all_digits (X : str) : Prop := Forall (λ c, Chr.is_digit c = true) X.
Definition all_word (X : str) : Prop := Forall (λ c, Chr.is_word c = true) X.

(** A [<] with a [>] somewhere after it. *)
Definition has_tag (x : str) : Prop :=
  ∃ a b c, x = a ++ Chr.lt :: b ++ Chr.gt :: c.

(** Where a tag that opens at the head of [x] ends. *)
Definition tag_end (x : str) : option str :=
  match x with
  | c :: x' => if Chr.eqb c Chr.lt then after Chr.gt x' else None
  | [] => None
  end.

(** The token in parentheses at the head of [x], and what follows. *)
Definition abbr_token (x : str) : option (str * str) :=
  match x with
  | c :: x1 =>
      if Chr.eqb c Chr.lpar then
        match (span Chr.is_digit x1).2 with
        | a :: x3 =>
            if Chr.is_alpha a then
              match (span Chr.is_word x3).2 with
              | c' :: r =>
                  if Chr.eqb c' Chr.rpar
                  then Some ((span Chr.is_digit x1).1 ++ a :: (span Chr.is_word x3).1, r)
                  else None
              | [] => None
              end
            else None
        | [] => None
        end
      else None
  | [] => None
  end.

(** Where a matching line that starts at the head of [x] ends. *)
Definition line_end (is_permissive : bool) (C x : str) : option str :=
  match strip_ci (line_key is_permissive C) x with
  | Some x1 => after Chr.nl x1
  | None => None
  end.

(** ** Vocabulary of the proofs *)

(** [^] at a position of the database text. *)
Definition bol (p : option ascii) : bool :=
  match p with
  | None => true
  | Some c => Chr.eqb c Chr.nl
  end.

(** A loop body that reads exactly one character passing [test]. *)
Definition reads (body : cursor → (cursor → option cursor) → option cursor)
    (test : ascii → bool) (step : ascii → str → cursor → cursor) : Prop :=
  ∀ cu k, body cu k =
    match rest cu with
    | c :: x => if test c then k (step c x cu) else None
    | [] => None
    end.

(** The lazy loop: the continuation first, one more character next. *)
Fixpoint lazy_run (test : ascii → bool) (step : ascii → str → cursor → cursor)
    (k : cursor → option cursor) (x : str) (cu : cursor) : option cursor :=
  orelse (k cu)
    match x with
    | c :: x' => if test c then lazy_run test step k x' (step c x' cu) else None
    | [] => None
    end.

(** The greedy loop: one more character first, the continuation next. *)
Fixpoint greedy_run (test : ascii → bool) (step : ascii → str → cursor → cursor)
    (k : cursor → option cursor) (x : str) (cu : cursor) : option cursor :=
  orelse
    match x with
    | c :: x' => if test c then greedy_run test step k x' (step c x' cu) else None
    | [] => None
    end
    (k cu).

(** The group [(.|\n)] reads any one character. *)
Definition any_step (c : ascii) (x : str) (cu : cursor) : cursor :=
  set_grp [c] (advance c x cu).

(** [cleanup] resumed in the middle of a text. *)
Definition cleanup_from (p : option ascii) (x : str) : str :=
  scan no_flags tag_pattern p x 0 ≫= sub_piece (s " ").

Definition abbrs_hits (p : option ascii) (x : str) (skip : nat) : list str :=
  scan abbrs_flags abbrs p x skip ≫= hit_value true.

(** The matches of a search string from a position of the text. *)
Definition search_hits (is_permissive : bool) (C : str) (p : option ascii)
    (x : str) : list str :=
  scan search_flags (search_string is_permissive C) p x 0 ≫= hit_value false.

(** ** A sample installation *)

Module Sample.

(** A pluraliser that proposes the token and the token with an [s]. *)
Definition plurals (x : str) : list str := [x; x ++ s "s"].

(** An engine that keeps each line as the fields, with score 0. *)
Definition adam (lines : list str) : list (nat * str) := (λ l, (0, l)) <$> lines.

(** A helper that also proposes the singular of a token in [s]. *)
Definition singulars (x : str) : list str :=
  match reverse x with
  | "s" :: r => [x; reverse r]
  | _ => [x]
  end.

(** The order in which the elements of a finite set are listed. *)
Definition order : set_order :=
  SetOrder (λ xs, elements (list_to_set (C := gset str) xs))
    (λ xs, NoDup_elements (list_to_set (C := gset str) xs))
    (λ xs x, iff_trans (elem_of_elements (list_to_set (C := gset str) xs) x)
               (elem_of_list_to_set x xs)).

(** One archive, one file that is no archive, one archive without the
    member, and one database file. *)
Definition archive (xml : str) (path : str) : outcome str :=
  if decide (path = s "report.docx") then Return xml
  else if decide (path = s "notes.txt") then Raise BadZipfile
  else if decide (path = s "empty.docx")
       then Raise (KeyError (s "There is no item named 'word/document.xml' in the archive"))
  else Raise (IOError path).

Definition file (db : str) (path : str) : option str :=
  if decide (path = s "adam.txt") then Some db else None.

Definition xml_report : str := s "<w:p><w:r>The (GEF) family (12)</w:r></w:p>".

Definition line (abbr long : str) : str := abbr ++ Chr.tab :: long.

(** Two lines, both closed by a newline. *)
Definition db_closed : str :=
  line (s "GEF") (s "foo") ++ Chr.nl :: line (s "GEFS") (s "bar") ++ [Chr.nl].

(** A database without the sample's abbreviation. *)
Definition db_other : str := line (s "MAB") (s "monoclonal antibody") ++ [Chr.nl].

(** The same two lines, the last one left open. *)
Definition db_open : str :=
  line (s "GEF") (s "foo") ++ Chr.nl :: line (s "GEFS") (s "bar").

(** [Document("report.docx", "adam.txt", ty, perm)] followed by
    [import_database()]. *)
Definition opened (xml db ty : str) (perm : bool) : outcome (@Document nat str) :=
  match __init__ adam (archive xml) (s "report.docx") (s "adam.txt") ty perm with
  | Return self =>
      match import_database (file db) self with
      | (Return _, self') => Return self'
      | (Raise e, _) => Raise e
      end
  | Raise e => Raise e
  end.

(** The object that [opened] builds. *)
Definition self (content : str) (db : option str) (ty : str) (perm : bool)
    : @Document nat str :=
  mkDocument (s "report.docx") (s "adam.txt") perm ty content
    {[ s "adam" := Descriptor adam (Lit Chr.tab) ]} db.

Definition report : str := s "  The (GEF) family (12)  ".
Definition plain : str := s " as noted (see above) and in (12), (1_a) ".

Definition descriptor_adam : @descriptor nat str := Descriptor adam (Lit Chr.tab).

(** The report under the strict policy, with the closed database. *)
Definition strict_closed := self report (Some db_closed) (s "adam") false.
(** The report under the strict policy, with the other database. *)
Definition strict_other := self report (Some db_other) (s "adam") false.
(** The plain document, unknown format, no database imported. *)
Definition quiet := self plain None (s "mesh") false.
(** The report, unknown format, permissive policy. *)
Definition loud := self report (Some db_closed) (s "mesh") true.

(** A reference [(12)] and the plural token [(12s)]. *)
Definition numbered := self (s " see (12) and (12s) ") None (s "adam") false.

(** Two texts with the same tokens, in another order and number. *)
Definition twice := self (s "see (MAB), (GEF) and (MAB)") None (s "adam") false.
Definition once := self (s "(GEF) then (MAB)") None (s "adam") false.

(** The report before any import, with the format [mesh] and with [adam]. *)
Definition fresh_mesh := self report None (s "mesh") false.
Definition fresh := self report None (s "adam") false.

(** What the strict search binds for the report in the closed database. *)
Definition strict_closed_matches : gmap str (list (nat * str)) :=
  {[ s "GEF" := [(0, line (s "GEF") (s "foo") ++ [Chr.nl])];
     s "GEFs" := [(0, line (s "GEFS") (s "bar") ++ [Chr.nl])] ]}.

End Sample.

(** ** Characters *)

Lemma eqb_true a b : Chr.eqb a b = true ↔ a = b.
Proof. apply Ascii.eqb_eq. Qed.

Lemma eqb_false a b : Chr.eqb a b = false ↔ a ≠ b.
Proof. apply Ascii.eqb_neq. Qed.

Lemma eqb_refl a : Chr.eqb a a = true.
Proof. by apply eqb_true. Qed.

Ltac by_cases c := destruct c as [[] [] [] [] [] [] [] []]; vm_compute; try done.

Lemma lower_not_upper c : Chr.is_upper c = false → Chr.lower c = c.
Proof. unfold Chr.lower. by intros ->. Qed.

Lemma alpha_lower c : Chr.is_alpha (Chr.lower c) = Chr.is_alpha c.
Proof. by_cases c. Qed.

(** A character that is not a letter is matched by itself only, also
    when case is ignored. *)
Lemma ci_eq_symbol x c : Chr.is_alpha c = false → ci_eq x c = true ↔ x = c.
Proof.
  intros Hc. unfold ci_eq. rewrite eqb_true. split; [|by intros ->].
  intros Heq.
  assert (Chr.is_alpha x = false) as Hx.
  { by rewrite <-alpha_lower, Heq, alpha_lower. }
  apply orb_false_iff in Hc as [Hc _]. apply orb_false_iff in Hx as [Hx _].
  by rewrite !lower_not_upper in Heq.
Qed.

Lemma range_az c : range_test abbrs_flags "a" "z" c = Chr.is_alpha c.
Proof. by_cases c. Qed.

Lemma digit_not_alpha c : Chr.is_digit c = true → Chr.is_alpha c = false.
Proof. by_cases c. Qed.

Lemma digit_word c : Chr.is_digit c = true → Chr.is_word c = true.
Proof. by_cases c. Qed.

Lemma alpha_word c : Chr.is_alpha c = true → Chr.is_word c = true.
Proof. unfold Chr.is_word. by intros ->. Qed.

Lemma lit_test_exact c x : lit_test no_flags c x = true ↔ x = c.
Proof. apply eqb_true. Qed.

Lemma lit_test_symbol fl c x :
  Chr.is_alpha c = false → lit_test fl c x = true ↔ x = c.
Proof.
  intros Hc. unfold lit_test. destruct (IGNORECASE fl).
  - by apply ci_eq_symbol.
  - apply eqb_true.
Qed.

Lemma lit_test_ci fl c x : IGNORECASE fl = true → lit_test fl c x = ci_eq x c.
Proof. unfold lit_test. by intros ->. Qed.

(** ** The matcher on single-character loops *)

Section Loops.

Variables (body : cursor → (cursor → option cursor) → option cursor)
  (test : ascii → bool) (step : ascii → str → cursor → cursor).
Hypothesis body_reads : reads body test step.
Hypothesis step_rest : ∀ c x cu, rest (step c x cu) = x.

Lemma repeat_lazy fuel cu k :
  length (rest cu) ≤ fuel →
  repeat_ body false fuel cu k = lazy_run test step k (rest cu) cu.
Proof.
  revert cu. induction fuel as [|fuel IH]; intros cu Hlen.
  - by destruct (rest cu) eqn:Hx; [|simpl in Hlen; lia].
  - cbn [repeat_]. rewrite body_reads.
    destruct (rest cu) as [|c x] eqn:Hx; [done|].
    cbn [lazy_run]. f_equal. destruct (test c); [|done].
    rewrite step_rest. simpl in Hlen.
    rewrite (proj2 (Nat.ltb_lt _ _)) by (simpl; lia).
    rewrite IH by (rewrite step_rest; lia). by rewrite ?step_rest.
Qed.

Lemma repeat_greedy fuel cu k :
  length (rest cu) ≤ fuel →
  repeat_ body true fuel cu k = greedy_run test step k (rest cu) cu.
Proof.
  revert cu. induction fuel as [|fuel IH]; intros cu Hlen.
  - by destruct (rest cu) eqn:Hx; [|simpl in Hlen; lia].
  - cbn [repeat_]. rewrite body_reads.
    destruct (rest cu) as [|c x] eqn:Hx; [done|].
    cbn [greedy_run]. f_equal. destruct (test c); [|done].
    rewrite step_rest. simpl in Hlen.
    rewrite (proj2 (Nat.ltb_lt _ _)) by (simpl; lia).
    rewrite IH by (rewrite step_rest; lia). by rewrite ?step_rest.
Qed.

End Loops.

Lemma one_reads test : reads (one test) test advance.
Proof. by intros cu k. Qed.

Lemma advance_rest c x cu : rest (advance c x cu) = x.
Proof. done. Qed.

Lemma advance_eq c x p y g :
  advance c x (Cursor p y g) = Cursor (Some c) x g.
Proof. done. Qed.

Lemma prev_after_cons p c a : prev_after p (c :: a) = prev_after (Some c) a.
Proof.
  unfold prev_after. destruct a as [|c' a]; [done|].
  change (last (c :: c' :: a)) with (last (c' :: a)).
  by destruct (last (c' :: a)) eqn:Hl; [|by apply last_None in Hl].
Qed.

Lemma prev_after_snoc p a c : prev_after p (a ++ [c]) = Some c.
Proof. unfold prev_after. by rewrite last_snoc. Qed.

Lemma span_app test x : (span test x).1 ++ (span test x).2 = x.
Proof. induction x as [|c x IH]; [done|]. simpl. destruct (test c); simpl; by f_equal. Qed.

Lemma span_run test x : Forall (λ c, test c = true) (span test x).1.
Proof.
  induction x as [|c x IH]; [by constructor|]. simpl.
  destruct (test c) eqn:Hc; simpl; by constructor.
Qed.

Lemma span_exact test a c x :
  Forall (λ c, test c = true) a → test c = false →
  span test (a ++ c :: x) = (a, c :: x).
Proof.
  intros Ha Hc. induction Ha as [|y a Hy _ IH]; simpl.
  - by rewrite Hc.
  - by rewrite Hy, IH.
Qed.

(** A greedy loop whose continuation cannot start on a character of
    the loop reads the whole run. *)
Lemma greedy_run_max test k x p g :
  (∀ cu, match rest cu with c :: _ => test c = true → k cu = None | [] => True end) →
  greedy_run test advance k x (Cursor p x g)
  = k (Cursor (prev_after p (span test x).1) (span test x).2 g).
Proof.
  intros Hk. revert p. induction x as [|c x IH]; intros p; [done|].
  cbn [greedy_run span]. destruct (test c) eqn:Hc; [|done].
  unfold advance. cbn [grp]. rewrite IH. cbn [fst snd].
  rewrite prev_after_cons.
  destruct (k (Cursor (prev_after (Some c) (span test x).1) (span test x).2 g)) eqn:Hr; [done|].
  simpl. specialize (Hk (Cursor p (c :: x) g)). by apply Hk.
Qed.

(** A lazy loop over anything but [c], followed by [c], stops at the
    first [c]. *)
Lemma lazy_run_until test step lit c k x cu :
  (∀ c x cu, rest (step c x cu) = x) →
  (∀ y, lit y = true ↔ y = c) →
  (∀ y, y ≠ c → test y = true) →
  (∀ cu, k cu = one lit cu Some) →
  rest cu = x →
  rest <$> lazy_run test step k x cu = after c x.
Proof.
  intros Hstep Hlit Htest Hk. revert cu.
  induction x as [|y x IH]; intros cu Hcu; cbn [lazy_run after].
  - rewrite Hk. unfold one. by rewrite Hcu.
  - rewrite Hk. unfold one. rewrite Hcu.
    destruct (Chr.eqb y c) eqn:Hy.
    + apply eqb_true in Hy as ->. by rewrite (proj2 (Hlit c)).
    + apply eqb_false in Hy.
      destruct (lit y) eqn:Hl; [by apply Hlit in Hl|].
      cbn [orelse]. rewrite Htest by done. by apply IH.
Qed.

Lemma after_split c x r :
  after c x = Some r ↔ ∃ a, x = a ++ c :: r ∧ c ∉ a.
Proof.
  revert r. induction x as [|y x IH]; intros r; simpl.
  - split; [done|]. intros ([|]&?&?); done.
  - destruct (Chr.eqb y c) eqn:Hy.
    + apply eqb_true in Hy as ->. split.
      * intros [= ->]. exists []. split; [done|]. apply not_elem_of_nil.
      * intros ([|y a] & Heq & Hn); simplify_eq/=; [done|].
        exfalso. apply Hn. by left.
    + apply eqb_false in Hy. rewrite IH. split.
      * intros (a & -> & Hn). exists (y :: a). split; [done|].
        rewrite not_elem_of_cons. done.
      * intros ([|y' a] & Heq & Hn); simplify_eq/=.
        exists a. split; [done|]. by apply not_elem_of_cons in Hn as [_ ?].
Qed.

Lemma after_None c x : after c x = None ↔ c ∉ x.
Proof.
  induction x as [|y x IH]; simpl.
  - split; [intros _; apply not_elem_of_nil|done].
  - destruct (Chr.eqb y c) eqn:Hy.
    + apply eqb_true in Hy as ->. split; [done|]. intros []. by left.
    + apply eqb_false in Hy. rewrite IH, not_elem_of_cons. split; [done|by intros [_ ?]].
Qed.

(** ** One match attempt of each pattern *)

Lemma any_char_reads :
  reads (exec no_flags (Group (Alt Dot (Lit Chr.nl)))) (λ _, true) any_step.
Proof.
  intros cu k. cbn [exec]. unfold one.
  destruct (rest cu) as [|c x] eqn:Hx; [done|].
  assert (consumed cu (advance c x cu) = [c]) as ->.
  { unfold consumed. rewrite Hx. cbn [advance rest length].
    by replace (S (length x) - length x) with 1 by lia. }
  unfold dot_test, lit_test. cbn [DOTALL IGNORECASE no_flags orb].
  fold (any_step c x cu).
  destruct (Chr.eqb c Chr.nl); cbn [negb orelse]; [done|].
  by destruct (k (any_step c x cu)).
Qed.

Lemma match_at_tag p x :
  rest <$> match_at no_flags tag_pattern p x = tag_end x.
Proof.
  unfold match_at, tag_pattern, tag_end. cbn [seq exec]. unfold one at 1.
  cbn [start rest]. destruct x as [|c x]; [done|].
  destruct (Chr.eqb c Chr.lt) eqn:Hc.
  - apply eqb_true in Hc as ->. rewrite (proj2 (lit_test_exact _ _)) by done.
    cbn [advance rest grp start].
    rewrite (repeat_lazy _ _ _ any_char_reads) by done.
    apply lazy_run_until with (lit := lit_test no_flags Chr.gt); try done.
    apply lit_test_exact.
  - apply eqb_false in Hc.
    by destruct (lit_test no_flags Chr.lt c) eqn:Hl; [apply lit_test_exact in Hl|].
Qed.

Lemma take_span_prefix (a b : str) : take (length (a ++ b) - length b) (a ++ b) = a.
Proof.
  rewrite length_app. replace (length a + length b - length b) with (length a) by lia.
  by rewrite take_app_length.
Qed.

Lemma match_at_abbrs p x :
  match_at abbrs_flags abbrs p x
  = (λ tr, Cursor (Some Chr.rpar) tr.2 (Some tr.1)) <$> abbr_token x.
Proof.
  unfold match_at, abbrs, abbr_token. cbn [seq exec]. unfold one at 1.
  cbn [start rest]. destruct x as [|c x1]; [done|].
  destruct (lit_test abbrs_flags Chr.lpar c) eqn:Hc.
  2:{ destruct (Chr.eqb c Chr.lpar) eqn:Hc'; [|done].
      apply eqb_true in Hc' as ->. by vm_compute in Hc. }
  apply lit_test_symbol in Hc as ->; [|done]. rewrite eqb_refl.
  rewrite (repeat_greedy _ _ _ (one_reads _) advance_rest) by done.
  unfold start. rewrite !advance_eq. cbn [rest]. rewrite greedy_run_max; cycle 1.
  { intros cu. destruct (rest cu) as [|y x] eqn:Hx; [done|]. intros Hy.
    unfold one. rewrite Hx, range_az. by rewrite digit_not_alpha. }
  set (ds := (span Chr.is_digit x1).1).
  pose proof (span_app Chr.is_digit x1) as Hx1. fold ds in Hx1.
  destruct ((span Chr.is_digit x1).2) as [|a x3] eqn:Hx2; [done|].
  unfold one at 1. cbn [rest]. rewrite range_az.
  destruct (Chr.is_alpha a) eqn:Ha; [|done].
  rewrite (repeat_greedy _ _ _ (one_reads _) advance_rest) by done.
  rewrite !advance_eq. cbn [rest]. rewrite greedy_run_max; cycle 1.
  { intros cu. destruct (rest cu) as [|y x] eqn:Hx; [done|]. intros Hy.
    unfold one. cbn [set_grp rest]. rewrite Hx.
    destruct (lit_test abbrs_flags Chr.rpar y) eqn:Hl; [|done].
    apply lit_test_symbol in Hl as ->; [|done]. by vm_compute in Hy. }
  set (ws := (span Chr.is_word x3).1).
  pose proof (span_app Chr.is_word x3) as Hx3. fold ws in Hx3.
  destruct ((span Chr.is_word x3).2) as [|c' r] eqn:Hx4; [done|].
  unfold one. cbn [set_grp rest].
  destruct (lit_test abbrs_flags Chr.rpar c') eqn:Hc'.
  - apply lit_test_symbol in Hc' as ->; [|done]. rewrite eqb_refl.
    unfold consumed. cbn [rest]. rewrite <-Hx1, <-Hx3.
    replace (ds ++ a :: ws ++ Chr.rpar :: r) with ((ds ++ a :: ws) ++ Chr.rpar :: r)
      by (by rewrite <-app_assoc).
    by rewrite take_span_prefix.
  - destruct (Chr.eqb c' Chr.rpar) eqn:Hc''; [|done].
    apply eqb_true in Hc'' as ->. by vm_compute in Hc'.
Qed.

Lemma abbr_token_shape x tok r :
  abbr_token x = Some (tok, r) →
  x = Chr.lpar :: tok ++ Chr.rpar :: r ∧ abbr_shape tok.
Proof.
  unfold abbr_token. destruct x as [|c x1]; [done|].
  destruct (Chr.eqb c Chr.lpar) eqn:Hc; [|done]. apply eqb_true in Hc as ->.
  pose proof (span_app Chr.is_digit x1) as Hx1.
  pose proof (span_run Chr.is_digit x1) as Hds.
  destruct ((span Chr.is_digit x1).2) as [|a x3]; [done|].
  destruct (Chr.is_alpha a) eqn:Ha; [|done].
  pose proof (span_app Chr.is_word x3) as Hx3.
  pose proof (span_run Chr.is_word x3) as Hws.
  destruct ((span Chr.is_word x3).2) as [|c' r']; [done|].
  destruct (Chr.eqb c' Chr.rpar) eqn:Hc'; [|done]. apply eqb_true in Hc' as ->.
  intros [= <- <-]. split.
  - f_equal. rewrite <-app_assoc. cbn [app]. by rewrite Hx3.
  - by eexists _, _, _.
Qed.

Lemma abbr_shape_token tok r :
  abbr_shape tok → abbr_token (Chr.lpar :: tok ++ Chr.rpar :: r) = Some (tok, r).
Proof.
  intros (ds & a & ws & -> & Hds & Ha & Hws).
  unfold abbr_token. rewrite eqb_refl, <-app_assoc. cbn [app].
  rewrite (span_exact _ ds a) by (done || by destruct (Chr.is_digit a) eqn:Hd;
    [apply digit_not_alpha in Hd; congruence|]).
  cbn [fst snd]. rewrite Ha. by rewrite (span_exact _ ws Chr.rpar).
Qed.

Lemma exec_lits fl C p x g k :
  IGNORECASE fl = true →
  exec fl (lits C) (Cursor p x g) k
  = match strip_ci C x with
    | Some x1 => k (Cursor (prev_after p (take (length C) x)) x1 g)
    | None => None
    end.
Proof.
  intros Hfl. revert p x. induction C as [|c C IH]; intros p x; [done|].
  cbn [lits exec strip_ci]. unfold one. cbn [rest].
  destruct x as [|y x]; [done|]. rewrite lit_test_ci by done.
  destruct (ci_eq y c); [|done].
  rewrite advance_eq, IH. cbn [length take]. by rewrite prev_after_cons.
Qed.

Lemma strip_ci_snoc C t x :
  strip_ci (C ++ [t]) x
  = match strip_ci C x with
    | Some (y :: x2) => if ci_eq y t then Some x2 else None
    | _ => None
    end.
Proof.
  revert x. induction C as [|c C IH]; intros x; cbn [app strip_ci].
  - destruct x as [|y x]; [done|]. by destruct (ci_eq y t).
  - destruct x as [|y x]; [done|]. by destruct (ci_eq y c).
Qed.

Lemma strip_ci_split C x x1 :
  strip_ci C x = Some x1 → ∃ h, x = h ++ x1 ∧ length h = length C.
Proof.
  revert x. induction C as [|c C IH]; intros x; cbn [strip_ci].
  - intros [= ->]. by exists [].
  - destruct x as [|y x]; [done|]. destruct (ci_eq y c); [|done].
    intros (h & -> & Hlen)%IH. exists (y :: h). split; [done|]. simpl. by rewrite Hlen.
Qed.

Lemma until_newline p x g :
  rest <$> repeat_ (exec search_flags Dot) false (length x) (Cursor p x g)
             (λ cu, exec search_flags (Seq (Lit Chr.nl) Eps) cu Some)
  = after Chr.nl x.
Proof.
  rewrite (repeat_lazy _ (dot_test search_flags) advance) by done.
  apply lazy_run_until with (lit := lit_test search_flags Chr.nl); try done.
  - intros y. by apply lit_test_symbol.
  - intros y Hy. unfold dot_test. cbn [DOTALL search_flags orb].
    by apply eqb_false in Hy as ->.
Qed.

Lemma match_at_search is_permissive C p x :
  rest <$> match_at search_flags (search_string is_permissive C) p x
  = if bol p then line_end is_permissive C x else None.
Proof.
  unfold match_at, search_string, line_end, line_key, start.
  assert (at_bol search_flags (Cursor p x None) = bol p) as Hbol by by destruct p.
  destruct is_permissive.
  - unfold search_string_permissive. cbn [seq exec]. rewrite Hbol.
    destruct (bol p); [|done]. rewrite exec_lits by done.
    destruct (strip_ci C x) as [x1|]; [|done]. apply until_newline.
  - unfold search_string_strict. cbn [seq exec]. rewrite Hbol.
    destruct (bol p); [|done]. rewrite exec_lits, strip_ci_snoc by done.
    destruct (strip_ci C x) as [[|y x2]|]; [done| |done].
    unfold one at 1. cbn [rest]. rewrite lit_test_ci by done.
    destruct (ci_eq y Chr.tab); [|done]. rewrite advance_eq. apply until_newline.
Qed.

(** ** Scanning a text *)

Lemma scan_skip fl r p (a b : str) :
  scan fl r p (a ++ b) (length a) = scan fl r (prev_after p a) b 0.
Proof.
  revert p. induction a as [|c a IH]; intros p; [done|].
  cbn [app length scan]. by rewrite IH, prev_after_cons.
Qed.

Lemma scan_hit fl r p (m x : str) e :
  match_at fl r p (m ++ x) = Some e → rest e = x → m ≠ [] →
  scan fl r p (m ++ x) 0 = Hit m (grp e) :: scan fl r (prev_after p m) x 0.
Proof.
  intros He Hx Hm. destruct m as [|c m]; [done|].
  cbn [app scan]. change (c :: m ++ x) with ((c :: m) ++ x). rewrite He, Hx.
  rewrite length_app.
  replace (length (c :: m) + length x - length x) with (S (length m)) by (simpl; lia).
  change (S (length m)) with (length (c :: m)). rewrite take_app_length.
  by rewrite scan_skip, prev_after_cons.
Qed.

Lemma scan_miss fl r p c (x : str) :
  match_at fl r p (c :: x) = None →
  scan fl r p (c :: x) 0 = Gap c :: scan fl r (Some c) x 0.
Proof. intros He. cbn [scan]. by rewrite He. Qed.

Lemma scan_end fl r p : match_at fl r p [] = None → scan fl r p [] 0 = [].
Proof. intros He. cbn [scan]. by rewrite He. Qed.

Lemma fmap_rest_Some (m : option cursor) x :
  rest <$> m = Some x → ∃ e, m = Some e ∧ rest e = x.
Proof. destruct m as [e|]; [|done]. intros [= <-]. by exists e. Qed.

Lemma fmap_rest_None (m : option cursor) : rest <$> m = None → m = None.
Proof. by destruct m. Qed.

(** ** [cleanup] *)

Lemma cleanup_start x : cleanup x = cleanup_from None x.
Proof. done. Qed.

Lemma cleanup_from_nil p : cleanup_from p [] = [].
Proof.
  unfold cleanup_from. rewrite scan_end; [done|].
  apply fmap_rest_None. by rewrite match_at_tag.
Qed.

Lemma cleanup_from_tag p mid x :
  Chr.gt ∉ mid →
  cleanup_from p (Chr.lt :: mid ++ Chr.gt :: x)
  = Chr.space :: cleanup_from (Some Chr.gt) x.
Proof.
  intros Hmid. unfold cleanup_from.
  destruct (fmap_rest_Some (match_at no_flags tag_pattern p
    ((Chr.lt :: mid ++ [Chr.gt]) ++ x)) x) as (e & He & Hx).
  { rewrite match_at_tag. cbn [app tag_end]. rewrite eqb_refl.
    apply after_split. exists mid. by rewrite <-app_assoc. }
  replace (Chr.lt :: mid ++ Chr.gt :: x) with ((Chr.lt :: mid ++ [Chr.gt]) ++ x)
    by (cbn [app]; by rewrite <-app_assoc).
  rewrite (scan_hit _ _ _ _ _ _ He Hx) by done.
  rewrite prev_after_cons, prev_after_snoc. done.
Qed.

Lemma cleanup_from_other p c x :
  tag_end (c :: x) = None →
  cleanup_from p (c :: x) = c :: cleanup_from (Some c) x.
Proof.
  intros Hend. unfold cleanup_from. rewrite scan_miss; [done|].
  apply fmap_rest_None. by rewrite match_at_tag.
Qed.

Lemma tag_end_None c x : tag_end (c :: x) = None ↔ c ≠ Chr.lt ∨ Chr.gt ∉ x.
Proof.
  cbn [tag_end]. destruct (Chr.eqb c Chr.lt) eqn:Hc.
  - apply eqb_true in Hc as ->. rewrite after_None. split; [by right|].
    by intros [?|?].
  - apply eqb_false in Hc. split; [by left|done].
Qed.

Lemma cleanup_from_no_gt p x : Chr.gt ∉ x → cleanup_from p x = x.
Proof.
  revert p. induction x as [|c x IH]; intros p Hx; [apply cleanup_from_nil|].
  apply not_elem_of_cons in Hx as [_ Hx].
  rewrite cleanup_from_other by (apply tag_end_None; by right).
  by rewrite IH.
Qed.

Lemma has_tag_cons c x :
  has_tag (c :: x) ↔ (c = Chr.lt ∧ Chr.gt ∈ x) ∨ has_tag x.
Proof.
  split.
  - intros ([|c' a] & b & d & Heq); simplify_eq/=.
    + left. split; [done|]. apply elem_of_app. right. by left.
    + right. by exists a, b, d.
  - intros [[-> (a & b & ->)%list_elem_of_split]|(a & b & d & ->)].
    + by exists [], a, b.
    + by exists (c :: a), b, d.
Qed.

Lemma has_tag_nil : ¬ has_tag [].
Proof. by intros ([|] & ? & ? & ?). Qed.

Lemma cleanup_from_untagged x : ∀ p, ¬ has_tag (cleanup_from p x).
Proof.
  remember (length x) as n eqn:Hn. revert x Hn.
  induction (lt_wf n) as [n _ IH]; intros x -> p.
  destruct x as [|c x]; [rewrite cleanup_from_nil; apply has_tag_nil|].
  destruct (tag_end (c :: x)) as [x'|] eqn:Hend.
  - cbn [tag_end] in Hend. destruct (Chr.eqb c Chr.lt) eqn:Hc; [|done].
    apply eqb_true in Hc as ->.
    apply after_split in Hend as (mid & -> & Hmid).
    rewrite cleanup_from_tag by done. rewrite has_tag_cons.
    intros [[? _]|Ht]; [done|].
    eapply (IH (length x')); [|done|apply Ht].
    cbn [length]. rewrite length_app. simpl. lia.
  - rewrite cleanup_from_other by done. rewrite has_tag_cons.
    intros [[-> Hgt]|Ht].
    + apply tag_end_None in Hend as [?|Hx]; [done|].
      by rewrite cleanup_from_no_gt in Hgt.
    + eapply (IH (length x)); [simpl; lia|done|apply Ht].
Qed.

Lemma cleanup_from_id p x : ¬ has_tag x → cleanup_from p x = x.
Proof.
  revert p. induction x as [|c x IH]; intros p Hx; [apply cleanup_from_nil|].
  rewrite has_tag_cons in Hx.
  rewrite cleanup_from_other.
  - rewrite IH; [done|]. intros ?. apply Hx. by right.
  - apply tag_end_None. destruct (decide (c = Chr.lt)) as [->|]; [|by left].
    right. intros ?. apply Hx. by left.
Qed.

Lemma cleanup_from_prefix p pre x :
  Chr.lt ∉ pre →
  cleanup_from p (pre ++ x) = pre ++ cleanup_from (prev_after p pre) x.
Proof.
  revert p. induction pre as [|c pre IH]; intros p Hpre; [done|].
  apply not_elem_of_cons in Hpre as [Hc Hpre]. cbn [app].
  rewrite cleanup_from_other by (apply tag_end_None; by left).
  by rewrite IH, prev_after_cons.
Qed.


(** ** The tokens that [abbrs.findall] returns *)

Lemma findall_abbrs x : findall abbrs_flags abbrs x = abbrs_hits None x 0.
Proof. done. Qed.

Lemma match_at_abbrs_Some p x e :
  match_at abbrs_flags abbrs p x = Some e →
  ∃ tok, grp e = Some tok ∧ x = Chr.lpar :: tok ++ Chr.rpar :: rest e ∧ abbr_shape tok.
Proof.
  rewrite match_at_abbrs. destruct (abbr_token x) as [[tok r]|] eqn:Htok; [|done].
  intros [= <-]. exists tok. split; [done|]. by apply abbr_token_shape.
Qed.

Lemma abbr_shape_word X : abbr_shape X → all_word X.
Proof.
  intros (ds & a & ws & -> & Hds & Ha & Hws). apply Forall_app. split.
  - eapply Forall_impl; [done|]. apply digit_word.
  - constructor; [by apply alpha_word|done].
Qed.

Lemma abbr_shape_letter X : abbr_shape X → has_letter X.
Proof.
  intros (ds & a & ws & -> & _ & Ha & _). apply Exists_app. right. by left.
Qed.

Lemma has_letter_not_digits X : has_letter X → ¬ all_digits X.
Proof.
  unfold has_letter, all_digits. intros Hl Hd.
  apply Exists_exists in Hl as (c & Hc & Ha).
  rewrite Forall_forall in Hd. apply Hd in Hc.
  apply digit_not_alpha in Hc. congruence.
Qed.

Lemma all_word_no_lpar X : all_word X → Chr.lpar ∉ X.
Proof. unfold all_word. intros Hw Hin. rewrite Forall_forall in Hw. by apply Hw in Hin. Qed.

Lemma all_word_no_nl X : all_word X → Chr.nl ∉ X.
Proof. unfold all_word. intros Hw Hin. rewrite Forall_forall in Hw. by apply Hw in Hin. Qed.

Lemma abbrs_hits_sound x : ∀ p skip tok, tok ∈ abbrs_hits p x skip → abbr_shape tok.
Proof.
  unfold abbrs_hits. induction x as [|c x IH]; intros p skip tok.
  - cbn [scan]. rewrite match_at_abbrs. cbn. destruct skip; by intros ?%elem_of_nil.
  - cbn [scan]. destruct skip as [|n]; [|apply IH].
    destruct (match_at abbrs_flags abbrs p (c :: x)) as [e|] eqn:He; [|apply IH].
    apply match_at_abbrs_Some in He as (tok' & Hg & _ & Hshape).
    destruct (length (c :: x) - length (rest e)); rewrite Hg;
      rewrite ?bind_cons; cbn [hit_value default app];
      intros [->|Hin]%elem_of_cons; try done; by eapply IH.
Qed.

Lemma abbrs_hits_complete pre : ∀ p skip tok post,
  abbr_shape tok →
  Chr.lpar ∉ take skip (pre ++ Chr.lpar :: tok ++ Chr.rpar :: post) →
  tok ∈ abbrs_hits p (pre ++ Chr.lpar :: tok ++ Chr.rpar :: post) skip.
Proof.
  unfold abbrs_hits. induction pre as [|c pre IH]; intros p skip tok post Hshape Hskip.
  - destruct skip as [|n]; [|exfalso; apply Hskip; by left].
    cbn [app scan]. rewrite match_at_abbrs, (abbr_shape_token _ _ Hshape).
    cbn [fmap option_fmap option_map grp fst snd].
    destruct (_ - _); rewrite bind_cons; by left.
  - cbn [app scan]. destruct skip as [|n].
    2:{ apply IH; [done|]. cbn [app take] in Hskip.
        by apply not_elem_of_cons in Hskip as [_ ?]. }
    destruct (match_at abbrs_flags abbrs p _) as [e|] eqn:He.
    2:{ rewrite bind_cons. apply IH; [done|]. apply not_elem_of_nil. }
    apply match_at_abbrs_Some in He as (tok' & Hg & Heq & Hshape').
    injection Heq as -> Heq. rewrite Heq.
    replace (length (Chr.lpar :: tok' ++ Chr.rpar :: rest e) - length (rest e))
      with (S (length (tok' ++ [Chr.rpar])))
      by (cbn [length]; rewrite !length_app; simpl; lia).
    rewrite bind_cons. right. rewrite <-Heq. apply IH; [done|]. rewrite Heq.
    replace (tok' ++ Chr.rpar :: rest e) with ((tok' ++ [Chr.rpar]) ++ rest e)
      by (by rewrite <-app_assoc).
    rewrite take_app_length. rewrite elem_of_app, list_elem_of_singleton.
    intros [Hin|?]; [|done]. by eapply all_word_no_lpar; [apply abbr_shape_word|].
Qed.

(** ** The lines that the search strings match *)

Lemma ci_eq_sym a b : ci_eq a b = ci_eq b a.
Proof. unfold ci_eq, Chr.eqb. apply Ascii.eqb_sym. Qed.

Lemma terminated_lines_none x : Chr.nl ∉ x → terminated_lines x = [].
Proof.
  induction x as [|c x IH]; [done|]. intros [Hc Hx]%not_elem_of_cons.
  cbn [terminated_lines]. apply not_eq_sym, eqb_false in Hc. rewrite Hc. by rewrite IH.
Qed.

Lemma terminated_lines_line l x :
  Chr.nl ∉ l → terminated_lines (l ++ Chr.nl :: x) = l :: terminated_lines x.
Proof.
  induction l as [|c l IH]; cbn [app terminated_lines].
  - intros _. by rewrite eqb_refl.
  - intros [Hc Hl]%not_elem_of_cons.
    apply not_eq_sym, eqb_false in Hc. rewrite Hc. by rewrite IH.
Qed.

Lemma strip_ci_line key l x :
  Chr.nl ∉ key →
  strip_ci key (l ++ Chr.nl :: x) = (λ l1, l1 ++ Chr.nl :: x) <$> strip_ci key l.
Proof.
  revert l. induction key as [|c key IH]; intros l Hkey; [done|].
  apply not_elem_of_cons in Hkey as [Hc Hkey].
  destruct l as [|y l]; cbn [app strip_ci].
  - destruct (ci_eq Chr.nl c) eqn:Hci; [|done].
    rewrite ci_eq_sym in Hci. by apply ci_eq_symbol in Hci.
  - destruct (ci_eq y c); [|done]. by apply IH.
Qed.

Lemma strip_ci_suffix key (l l1 : str) c : strip_ci key l = Some l1 → c ∉ l → c ∉ l1.
Proof.
  intros (h & -> & _)%strip_ci_split Hl Hin. apply Hl, elem_of_app. by right.
Qed.

Lemma line_end_line is_permissive C l x :
  all_word C → Chr.nl ∉ l →
  line_end is_permissive C (l ++ Chr.nl :: x)
  = if begins_ci (line_key is_permissive C) l then Some x else None.
Proof.
  intros HC Hl. unfold line_end, begins_ci.
  rewrite strip_ci_line.
  2:{ unfold line_key. destruct is_permissive; [by apply all_word_no_nl|].
      rewrite elem_of_app, list_elem_of_singleton.
      intros [?|?]; [by eapply all_word_no_nl|done]. }
  destruct (strip_ci _ l) as [l1|] eqn:Hs; cbn; [|done].
  apply after_split. exists l1. split; [done|]. by eapply strip_ci_suffix.
Qed.

Lemma line_end_none is_permissive C x :
  Chr.nl ∉ x → line_end is_permissive C x = None.
Proof.
  intros Hx. unfold line_end.
  destruct (strip_ci _ x) as [x1|] eqn:Hs; [|done].
  apply after_None. by eapply strip_ci_suffix.
Qed.

Lemma has_group_lits C : has_group (lits C) = false.
Proof. induction C as [|c C IH]; [done|]. by cbn. Qed.

Lemma has_group_search is_permissive C :
  has_group (search_string is_permissive C) = false.
Proof. destruct is_permissive; cbn; by rewrite has_group_lits. Qed.

Lemma findall_search is_permissive C x :
  findall search_flags (search_string is_permissive C) x
  = search_hits is_permissive C None x.
Proof. unfold findall. by rewrite has_group_search. Qed.

Section SearchHits.

Variables (is_permissive : bool) (C : str).
Hypothesis C_word : all_word C.

Lemma search_hits_miss p c x :
  line_end is_permissive C (c :: x) = None ∨ bol p = false →
  search_hits is_permissive C p (c :: x) = search_hits is_permissive C (Some c) x.
Proof.
  intros H. unfold search_hits. rewrite scan_miss; [done|].
  apply fmap_rest_None. rewrite match_at_search.
  destruct H as [->| ->]; [by destruct (bol p)|done].
Qed.

Lemma search_hits_nil p : search_hits is_permissive C p [] = [].
Proof.
  unfold search_hits. rewrite scan_end; [done|].
  apply fmap_rest_None. rewrite match_at_search, line_end_none; [|apply not_elem_of_nil].
  by destruct (bol p).
Qed.

(** Inside a line nothing matches. *)
Lemma search_hits_inside l : ∀ p,
  bol p = false → Chr.nl ∉ l →
  search_hits is_permissive C p l = [] ∧
  ∀ x, search_hits is_permissive C p (l ++ Chr.nl :: x)
       = search_hits is_permissive C (Some Chr.nl) x.
Proof.
  induction l as [|c l IH]; intros p Hp Hl.
  - split; [apply search_hits_nil|]. intros x. cbn [app].
    apply search_hits_miss. by right.
  - apply not_elem_of_cons in Hl as [Hc Hl].
    destruct (IH (Some c)) as [IH1 IH2]; [by apply eqb_false|done|].
    split; [|intros x; cbn [app]]; rewrite search_hits_miss by (by right); done.
Qed.

Lemma search_hits_lines x : ∀ p,
  bol p = true → search_hits is_permissive C p x = matched_lines is_permissive C x.
Proof.
  remember (length x) as n eqn:Hn. revert x Hn.
  induction (lt_wf n) as [n _ IH]; intros x -> p Hp.
  unfold matched_lines.
  destruct (after Chr.nl x) as [r|] eqn:Hx.
  - apply after_split in Hx as (l & -> & Hl).
    rewrite terminated_lines_line by done.
    specialize (IH (length r)). unfold matched_lines in IH.
    assert (length r < length (l ++ Chr.nl :: r)) as Hlen
      by (rewrite length_app; simpl; lia).
    pose proof (line_end_line is_permissive C l r C_word Hl) as Hend.
    destruct (begins_ci (line_key is_permissive C) l) eqn:Hb.
    + rewrite filter_cons_True by done. cbn [fmap list_fmap].
      rewrite <-(IH Hlen r eq_refl (Some Chr.nl) eq_refl).
      destruct (fmap_rest_Some (match_at search_flags (search_string is_permissive C) p
        ((l ++ [Chr.nl]) ++ r)) r) as (e & He & Hr).
      { by rewrite match_at_search, Hp, <-app_assoc. }
      unfold search_hits.
      replace (l ++ Chr.nl :: r) with ((l ++ [Chr.nl]) ++ r) by (by rewrite <-app_assoc).
      rewrite (scan_hit _ _ _ _ _ _ He Hr) by (by destruct l).
      by rewrite prev_after_snoc.
    + rewrite filter_cons_False by (by rewrite Hb).
      rewrite <-(IH Hlen r eq_refl (Some Chr.nl) eq_refl).
      destruct l as [|c l]; cbn [app] in *.
      * apply search_hits_miss. by left.
      * rewrite search_hits_miss by (by left).
        apply not_elem_of_cons in Hl as [Hc Hl].
        apply search_hits_inside; [by apply eqb_false|done].
  - apply after_None in Hx. rewrite terminated_lines_none by done.
    destruct x as [|c x]; [apply search_hits_nil|].
    rewrite search_hits_miss by (left; by apply line_end_none).
    apply not_elem_of_cons in Hx as [Hc Hx].
    apply search_hits_inside; [by apply eqb_false|done].
Qed.

End SearchHits.

(** The result of [cleanup] does not depend on the character before
    the place where the scan resumes. *)
Lemma cleanup_from_any p q x : cleanup_from p x = cleanup_from q x.
Proof.
  destruct x as [|c x]; [by rewrite !cleanup_from_nil|].
  destruct (tag_end (c :: x)) as [x'|] eqn:Hend.
  - cbn [tag_end] in Hend. destruct (Chr.eqb c Chr.lt) eqn:Hc; [|done].
    apply eqb_true in Hc as ->.
    apply after_split in Hend as (m & -> & Hm). by rewrite !cleanup_from_tag.
  - by rewrite !cleanup_from_other.
Qed.

Lemma terminated_lines_tail body last :
  Chr.nl ∉ last → terminated_lines (body ++ last) = terminated_lines body.
Proof.
  intros Hlast. induction body as [|c body IH]; cbn [app terminated_lines].
  - by apply terminated_lines_none.
  - by rewrite IH.
Qed.

Lemma terminated_lines_no_nl x l : l ∈ terminated_lines x → Chr.nl ∉ l.
Proof.
  revert l. induction x as [|c x IH]; intros l; cbn [terminated_lines].
  - by intros ?%elem_of_nil.
  - destruct (Chr.eqb c Chr.nl) eqn:Hc.
    + intros [->|Hl]%elem_of_cons; [apply not_elem_of_nil|by apply IH].
    + apply eqb_false in Hc. destruct (terminated_lines x) as [|l' ls]; [by intros ?%elem_of_nil|].
      intros [->|Hl]%elem_of_cons.
      * apply not_elem_of_cons. split; [done|]. apply IH. by left.
      * apply IH. by right.
Qed.

(** ** Methods of [Document] *)

Section DocumentProperties.

Context {score fields : Type}.
Variable plurals : str → list str.
Variable order : set_order.

Abbreviation Doc := (@Document score fields).
Abbreviation ranked := (list (score * fields)).

Lemma for_rounds {A S} (body : A → S → M S) (f : A → S → outcome S) (self : Doc) xs :
  (∀ x acc, body x acc self = (f x acc, self)) →
  ∀ acc, for_ xs body acc self = (rounds f xs acc, self).
Proof.
  intros Hbody. induction xs as [|x xs IH]; intros acc; [done|].
  cbn [for_ rounds]. unfold mbind, M_bind. rewrite Hbody.
  destruct (f x acc) as [acc'|e]; [apply IH|done].
Qed.

Lemma search_database_rounds (self : Doc) :
  search_database plurals order self
  = (rounds (iteration self) (find_abbr plurals order self) ∅, self).
Proof.
  unfold search_database. unfold mbind at 1, M_bind at 1, attr at 1.
  apply for_rounds. intros abbr matches.
  unfold iteration, mbind, M_bind, attr, attr_abbreviations, subscript, mret, M_ret, throw.
  destruct (permissive self);
    destruct (parsers self !! db_type self) eqn:Hp;
    destruct (abbreviations self) eqn:Ha; cbn; rewrite ?Hp; done.
Qed.

Lemma rounds_return {A S} (f : A → S → outcome S) (g : A → S → S) xs :
  (∀ x acc, f x acc = Return (g x acc)) →
  ∀ acc, rounds f xs acc = Return (foldl (λ acc x, g x acc) acc xs).
Proof.
  intros Hf. induction xs as [|x xs IH]; intros acc; [done|].
  cbn. by rewrite Hf, IH.
Qed.

Lemma lookup_foldl_insert_other {V} (f : str → V) (xs : list str) (m : gmap str V) (C : str) :
  C ∉ xs → foldl (λ acc x, <[x := f x]> acc) m xs !! C = m !! C.
Proof.
  revert m. induction xs as [|x xs IH]; intros m; [done|].
  intros [Hx Hxs]%not_elem_of_cons. cbn [foldl].
  rewrite IH by done. by apply lookup_insert_ne.
Qed.

Lemma lookup_foldl_insert {V} (f : str → V) (xs : list str) (m : gmap str V) (C : str) :
  C ∈ xs → foldl (λ acc x, <[x := f x]> acc) m xs !! C = Some (f C).
Proof.
  revert m. induction xs as [|x xs IH]; intros m; [by intros ?%elem_of_nil|].
  intros Hin. cbn [foldl]. destruct (decide (C ∈ xs)) as [|Hn]; [by apply IH|].
  apply elem_of_cons in Hin as [->|]; [|done].
  rewrite lookup_foldl_insert_other by done. apply lookup_insert_eq.
Qed.

Lemma find_abbr_elem (self : Doc) v :
  v ∈ find_abbr plurals order self ↔
  ∃ x, x ∈ findall abbrs_flags abbrs (content self) ∧ v ∈ plurals x.
Proof.
  unfold find_abbr. rewrite list_set_elem, list_elem_of_bind.
  split; intros (x & ? & ?); by exists x.
Qed.

Lemma candidates_word (self : Doc) C :
  (∀ X v, all_word X → v ∈ plurals X → all_word v) →
  C ∈ find_abbr plurals order self → all_word C.
Proof.
  intros Hplurals (X & HX & Hv)%find_abbr_elem. apply (Hplurals X); [|done].
  rewrite findall_abbrs in HX. by eapply abbr_shape_word, abbrs_hits_sound.
Qed.

Lemma search_database_succeeds (self : Doc) d db :
  parsers self !! db_type self = Some d →
  abbreviations self = Some db →
  ∃ matches, search_database plurals order self = (Return matches, self) ∧
    (∀ C, C ∈ find_abbr plurals order self →
      matches !! C = Some (engine d (findall search_flags
        ((if permissive self then search_string_permissive
          else search_string_strict (delimiter d)) C) db))) ∧
    (∀ C, C ∈ find_abbr plurals order self → is_Some (matches !! C)).
Proof.
  intros Hd Hdb. rewrite search_database_rounds.
  set (value := λ abbr : str, engine d (findall search_flags
    ((if permissive self then search_string_permissive
      else search_string_strict (delimiter d)) abbr) db)).
  rewrite (rounds_return _ (λ abbr matches, <[abbr := value abbr]> matches)).
  2:{ intros abbr matches. unfold iteration, value. rewrite Hd, Hdb.
      by destruct (permissive self). }
  eexists. split; [done|]. split; intros C HC.
  - by apply (lookup_foldl_insert value).
  - rewrite (lookup_foldl_insert value) by done. by eexists.
Qed.

Lemma search_database_raises (self : Doc) :
  find_abbr plurals order self ≠ [] →
  parsers self !! db_type self = None ∨ abbreviations self = None →
  ∃ e, search_database plurals order self = (Raise e, self) ∧
    (parsers self !! db_type self = None →
     permissive self = false ∨ is_Some (abbreviations self) →
     e = KeyError (db_type self)).
Proof.
  intros Hne Hbad. rewrite search_database_rounds.
  destruct (find_abbr plurals order self) as [|abbr xs]; [done|]. cbn [rounds].
  unfold iteration.
  destruct (permissive self), (parsers self !! db_type self) as [d|],
    (abbreviations self) as [db|]; try (by destruct Hbad); cbn;
    eexists; (split; [done|]); intros ? [?|[? ?]]; by simplify_eq.
Qed.


(** C9.  The [results] of a search, under both policies, are the same
    with and without a last line that has no newline: for a candidate
    [C] of word characters and a text [body ++ last] where [last]
    holds no newline, [re.findall] returns what it returns on [body],
    and every string it returns is a line closed by its newline. *)
Theorem unterminated_last_line_never_matched is_permissive C body last :
  all_word C →
  Chr.nl ∉ last →
  findall search_flags (search_string is_permissive C) (body ++ last)
  = findall search_flags (search_string is_permissive C) body
  ∧ ∀ r, r ∈ findall search_flags (search_string is_permissive C) (body ++ last) →
      ∃ l, r = l ++ [Chr.nl] ∧ Chr.nl ∉ l.
Proof.
  intros Hword Hlast. rewrite !findall_search, !search_hits_lines by done.
  unfold matched_lines. rewrite terminated_lines_tail by done. split; [done|].
  intros r (l & -> & Hl)%list_elem_of_fmap. exists l. split; [done|].
  apply list_elem_of_filter in Hl as [_ Hl]. by eapply terminated_lines_no_nl.
Qed.

(** C2 (as amended).  A purely numeric [N] is never one of the tokens
    that the pattern extracts from the content, so [plurals] is never
    applied to it: every candidate is a variant of an extracted token
    that holds a letter.  [N] is not a candidate of [find_abbr]
    provided that [plurals] gives no purely numeric variant of a token
    that holds a letter. *)
Theorem find_abbr_skips_numbers (self : Doc) N :
  all_digits N →
  (N ∉ findall abbrs_flags abbrs (content self)) ∧
  (∀ c, c ∈ find_abbr plurals order self →
     ∃ x, x ∈ findall abbrs_flags abbrs (content self) ∧ has_letter x ∧ x ≠ N ∧
          c ∈ plurals x) ∧
  ((∀ x v, has_letter x → v ∈ plurals x → ¬ all_digits v) →
   N ∉ find_abbr plurals order self).
Proof.
  intros HN.
  assert (∀ x, x ∈ findall abbrs_flags abbrs (content self) → has_letter x) as Hletter.
  { intros x Hx. rewrite findall_abbrs in Hx.
    by apply abbrs_hits_sound, abbr_shape_letter in Hx. }
  assert (N ∉ findall abbrs_flags abbrs (content self)) as HnotN.
  { intros Hin%Hletter. by apply has_letter_not_digits in Hin. }
  split; [done|]. split.
  - intros c (x & Hx & Hc)%find_abbr_elem. exists x.
    repeat split; [done|by apply Hletter| |done]. by intros ->.
  - intros Hpl (x & Hx & Hv)%find_abbr_elem. eapply Hpl; [by apply Hletter|done..].
Qed.

(** C3 (as amended).  For every occurrence of [(X)] in the content
    where [X] is made of optional digits, then a letter, then word
    characters, [X] is extracted and every variant that [plurals]
    gives for [X] is a candidate; so some variant of [X] is a candidate
    whenever [plurals X] is not empty. *)
Theorem find_abbr_keeps_tokens (self : Doc) pre X post :
  content self = pre ++ Chr.lpar :: X ++ Chr.rpar :: post →
  abbr_shape X →
  X ∈ findall abbrs_flags abbrs (content self) ∧
  (∀ v, v ∈ plurals X → v ∈ find_abbr plurals order self) ∧
  (plurals X ≠ [] → ∃ v, v ∈ plurals X ∧ v ∈ find_abbr plurals order self).
Proof.
  intros Hc HX.
  assert (X ∈ findall abbrs_flags abbrs (content self)) as Hin.
  { rewrite findall_abbrs, Hc. apply abbrs_hits_complete; [done|]. apply not_elem_of_nil. }
  split; [done|].
  assert (∀ v, v ∈ plurals X → v ∈ find_abbr plurals order self) as Hall.
  { intros v Hv. apply find_abbr_elem. by exists X. }
  split; [done|]. intros Hne. destruct (plurals X) as [|v vs] eqn:Hp; [done|].
  exists v. split; [by left|]. apply Hall. by left.
Qed.

(** C4.  The result of [cleanup] holds no [<] followed, at any
    distance and across newlines, by a [>]; a tag that opens at the
    first [<] of the text and closes at the first [>] after it is
    replaced by one space and the text before it is kept; and a text
    without tags is returned as it is. *)
Theorem cleanup_strips_tags data pre mid post :
  ¬ has_tag (cleanup data) ∧
  (Chr.lt ∉ pre → Chr.gt ∉ mid →
   cleanup (pre ++ Chr.lt :: mid ++ Chr.gt :: post) = pre ++ Chr.space :: cleanup post) ∧
  (¬ has_tag data → cleanup data = data).
Proof.
  change cleanup with (cleanup_from None).
  split; [apply cleanup_from_untagged|]. split.
  - intros Hpre Hmid. rewrite cleanup_from_prefix, cleanup_from_tag by done.
    do 2 f_equal. apply cleanup_from_any.
  - apply cleanup_from_id.
Qed.


(** C6.  When the candidates are made of word characters, the
    format is registered and a database was imported,
    [search_database] raises nothing and binds every candidate in its
    result; a candidate whose search finds no line is bound to what
    the engine returns for the empty list: the empty list for an
    engine that maps the empty list to itself. *)
Theorem search_database_empty_entry (self : Doc) d db C :
  (∀ c, c ∈ find_abbr plurals order self → all_word c) →
  parsers self !! db_type self = Some d →
  abbreviations self = Some db →
  C ∈ find_abbr plurals order self →
  findall search_flags
    ((if permissive self then search_string_permissive
      else search_string_strict (delimiter d)) C) db = [] →
  engine d [] = [] →
  ∃ matches, search_database plurals order self = (Return matches, self) ∧
    matches !! C = Some [] ∧
    ∀ c, c ∈ find_abbr plurals order self → is_Some (matches !! c).
Proof.
  intros _ Hd Hdb HC Hnone Hengine.
  destruct (search_database_succeeds self d db Hd Hdb) as (matches & Hrun & Hm & Hkeys).
  exists matches. split; [done|]. split; [|done].
  by rewrite (Hm C HC), Hnone, Hengine.
Qed.

(** C7.  [get_top] returns the fields of the first entry of a list
    that has one, and raises [IndexError] on the empty list. *)
Theorem get_top_first_or_error (e : score * fields) (others : ranked) :
  get_top (e :: others) = Return e.2 ∧
  get_top (@nil (score * fields)) = Raise IndexError.
Proof. done. Qed.

(** C8.  [search_database] leaves [self.content] and
    [self.abbreviations] as they were, whether it returns or raises. *)
Theorem search_database_frame (self : Doc) :
  content (search_database plurals order self).2 = content self ∧
  abbreviations (search_database plurals order self).2 = abbreviations self.
Proof. by rewrite search_database_rounds. Qed.

(** C10.  With no candidate, [search_database] returns the empty
    mapping whatever the format identifier is and whether or not a
    database was imported; with at least one candidate it raises as
    soon as the identifier is not registered or no database was
    imported. *)
Theorem search_database_checks_only_in_loop (self : Doc) :
  (find_abbr plurals order self = [] → search_database plurals order self = (Return ∅, self)) ∧
  (find_abbr plurals order self ≠ [] →
   parsers self !! db_type self = None ∨ abbreviations self = None →
   raised (search_database plurals order self).1).
Proof.
  split.
  - intros Hnil. by rewrite search_database_rounds, Hnil.
  - intros Hne Hbad. destruct (search_database_raises self Hne Hbad) as (e & -> & _).
    by exists e.
Qed.

End DocumentProperties.

(** ** The sample installation *)

Lemma Forall_test (f : ascii → bool) (x : str) :
  forallb f x = true → Forall (λ c, f c = true) x.
Proof. intros H. apply Forall_forall. intros c Hc%list_elem_of_In. by eapply forallb_forall. Qed.

Lemma has_letter_test (x : str) : existsb Chr.is_alpha x = true → has_letter x.
Proof.
  intros (c & Hc%list_elem_of_In & Ha)%existsb_exists. apply Exists_exists. by exists c.
Qed.

Lemma not_elem_test (c : ascii) (x : str) :
  forallb (λ y, negb (Chr.eqb y c)) x = true → c ∉ x.
Proof.
  intros H Hin%list_elem_of_In. eapply forallb_forall in H; [|done].
  by rewrite eqb_refl in H.
Qed.

Lemma abbr_shape_test X :
  abbr_token (Chr.lpar :: X ++ [Chr.rpar]) = Some (X, []) → abbr_shape X.
Proof. by intros [_ ?]%abbr_token_shape. Qed.

Lemma has_letter_app_l x y : has_letter x → has_letter (x ++ y).
Proof. intros H. apply Exists_app. by left. Qed.

Lemma sample_plurals_keep_letters x v :
  has_letter x → v ∈ Sample.plurals x → ¬ all_digits v.
Proof.
  intros Hx [->|[->|[]%elem_of_nil]%elem_of_cons]%elem_of_cons;
    apply has_letter_not_digits; [done|by apply has_letter_app_l].
Qed.

Lemma sample_plurals_word X v :
  all_word X → v ∈ Sample.plurals X → all_word v.
Proof.
  intros HX [->|[->|[]%elem_of_nil]%elem_of_cons]%elem_of_cons; [done|].
  apply Forall_app. split; [done|]. by apply Forall_test.
Qed.

Lemma sample_candidates_word (self : @Document nat str) c :
  c ∈ find_abbr Sample.plurals Sample.order self → all_word c.
Proof. apply candidates_word, sample_plurals_word. Qed.

Lemma sample_opened_report :
  Sample.opened Sample.xml_report Sample.db_closed (s "adam") false
  = Return Sample.strict_closed.
Proof. vm_compute. reflexivity. Qed.

(** The example of the specification: the text [the (MAB) pathway]
    and the one-line database [MAB<tab>Monoclonal Antibody]. *)
Example cleanup_paragraph :
  cleanup (s "<w:p>the (MAB) pathway</w:p>") = s " the (MAB) pathway ".
Proof. vm_compute. reflexivity. Qed.

Example abbrs_paragraph :
  findall abbrs_flags abbrs (s " in (MAB), (12), (see above), (2nd_x) and (_a) ")
  = [s "MAB"; s "2nd_x"].
Proof. vm_compute. reflexivity. Qed.

Example search_paragraph :
  (search_database Sample.plurals Sample.order
     (Sample.self (s " the (MAB) pathway ") (Some Sample.db_other) (s "adam") false)).1
  = Return {[ s "MAB" := [(0, Sample.line (s "MAB") (s "monoclonal antibody") ++ [Chr.nl])];
              s "MABs" := [] ]}.
Proof. vm_compute. reflexivity. Qed.

Example get_top_paragraph :
  get_top [(0, s "monoclonal antibody"); (0, s "other")] = Return (s "monoclonal antibody").
Proof. reflexivity. Qed.

(** ** Counterexamples to the claims as they are stated *)


(** C2 as stated fails with a helper that also proposes the singular
    of a token, which is what the comment in [find_abbr] says the
    helper is for: the text holds the reference [(12)] and the token
    [(12s)], the helper gives [12] for [12s], and [12] is a
    candidate. *)
Lemma numeric_candidate_from_plural_token :
  content Sample.numbered
    = s " see " ++ Chr.lpar :: s "12" ++ Chr.rpar :: s " and (12s) " ∧
  all_digits (s "12") ∧
  Sample.singulars (s "12s") = [s "12s"; s "12"] ∧
  s "12" ∈ find_abbr Sample.singulars Sample.order Sample.numbered.
Proof.
  split; [reflexivity|]. split; [by apply Forall_test|]. split; [reflexivity|].
  apply find_abbr_elem. exists (s "12s"). split.
  - vm_compute. apply list_elem_of_here.
  - vm_compute. apply list_elem_of_further, list_elem_of_here.
Qed.

(** C3 as stated fails: [(see above)] and [(1_a)] hold letters, and
    the plain document that holds them yields no candidate at all. *)
Lemma lettered_parenthetical_not_extracted :
  find_abbr Sample.plurals Sample.order Sample.quiet = [] ∧
  ¬ (∀ (self : @Document nat str) (pre X post : str),
       content self = pre ++ Chr.lpar :: X ++ Chr.rpar :: post →
       has_letter X →
       ∃ v, (v = X ∨ v ∈ Sample.plurals X) ∧ v ∈ find_abbr Sample.plurals Sample.order self).
Proof.
  assert (find_abbr Sample.plurals Sample.order Sample.quiet = []) as Hnone
    by (vm_compute; reflexivity).
  split; [done|]. intros H.
  destruct (H Sample.quiet (s " as noted ") (s "see above")
              (s " and in (12), (1_a) ") eq_refl) as (v & _ & Hv).
  - by apply has_letter_test.
  - rewrite Hnone in Hv. by apply elem_of_nil in Hv.
Qed.


(** ** The theorems at the sample installation *)

Lemma sample_candidate (self : @Document nat str) :
  content self = Sample.report → s "GEF" ∈ find_abbr Sample.plurals Sample.order self.
Proof.
  intros Hc. apply find_abbr_elem. exists (s "GEF"). split; [|by left].
  rewrite Hc. vm_compute. apply list_elem_of_here.
Qed.


(** C9 at the sample: the open last line [GEFS<tab>bar] adds nothing
    to the permissive search for [GEF]. *)
Lemma unterminated_last_line_never_matched_sample :
  (all_word (s "GEF") ∧ Chr.nl ∉ Sample.line (s "GEFS") (s "bar")) ∧
  findall search_flags (search_string true (s "GEF"))
    ((Sample.line (s "GEF") (s "foo") ++ [Chr.nl]) ++ Sample.line (s "GEFS") (s "bar"))
  = findall search_flags (search_string true (s "GEF"))
      (Sample.line (s "GEF") (s "foo") ++ [Chr.nl]) ∧
  ∀ r, r ∈ findall search_flags (search_string true (s "GEF"))
         ((Sample.line (s "GEF") (s "foo") ++ [Chr.nl]) ++ Sample.line (s "GEFS") (s "bar")) →
    ∃ l, r = l ++ [Chr.nl] ∧ Chr.nl ∉ l.
Proof.
  assert (all_word (s "GEF")) as H1 by (by apply Forall_test).
  assert (Chr.nl ∉ Sample.line (s "GEFS") (s "bar")) as H2 by (by apply not_elem_test).
  split; [done|].
  exact (unterminated_last_line_never_matched true (s "GEF")
           (Sample.line (s "GEF") (s "foo") ++ [Chr.nl])
           (Sample.line (s "GEFS") (s "bar")) H1 H2).
Defined.

(** C2 at the sample: [12] is not a candidate of the report. *)
Lemma find_abbr_skips_numbers_sample :
  all_digits (s "12") ∧
  (s "12" ∉ findall abbrs_flags abbrs (content Sample.strict_closed)) ∧
  (∀ c, c ∈ find_abbr Sample.plurals Sample.order Sample.strict_closed →
     ∃ x, x ∈ findall abbrs_flags abbrs (content Sample.strict_closed) ∧
          has_letter x ∧ x ≠ s "12" ∧ c ∈ Sample.plurals x) ∧
  (s "12" ∉ find_abbr Sample.plurals Sample.order Sample.strict_closed).
Proof.
  assert (all_digits (s "12")) as H1 by (by apply Forall_test).
  destruct (find_abbr_skips_numbers Sample.plurals Sample.order Sample.strict_closed (s "12") H1)
    as (Hraw & Hfrom & Hcand).
  split; [done|]. split; [exact Hraw|]. split; [exact Hfrom|].
  exact (Hcand sample_plurals_keep_letters).
Defined.

(** C3 at the sample: [GEF] and its plural are candidates of the report. *)
Lemma find_abbr_keeps_tokens_sample :
  (content Sample.strict_closed
   = s "  The " ++ Chr.lpar :: s "GEF" ++ Chr.rpar :: s " family (12)  " ∧
   abbr_shape (s "GEF")) ∧
  s "GEF" ∈ findall abbrs_flags abbrs (content Sample.strict_closed) ∧
  (∀ v, v ∈ Sample.plurals (s "GEF") → v ∈ find_abbr Sample.plurals Sample.order Sample.strict_closed) ∧
  (Sample.plurals (s "GEF") ≠ [] →
   ∃ v, v ∈ Sample.plurals (s "GEF") ∧ v ∈ find_abbr Sample.plurals Sample.order Sample.strict_closed).
Proof.
  assert (abbr_shape (s "GEF")) as H1 by (by apply abbr_shape_test).
  split; [done|].
  exact (find_abbr_keeps_tokens Sample.plurals Sample.order Sample.strict_closed (s "  The ") (s "GEF")
           (s " family (12)  ") eq_refl H1).
Defined.

(** C4 at the sample: one tag between two words. *)
Lemma cleanup_strips_tags_sample :
  ((Chr.lt ∉ s "a ") ∧ (Chr.gt ∉ s "br/") ∧ ¬ has_tag (s "x < y")) ∧
  ¬ has_tag (cleanup (s "x < y")) ∧
  cleanup (s "a " ++ Chr.lt :: s "br/" ++ Chr.gt :: s " b")
  = s "a " ++ Chr.space :: cleanup (s " b") ∧
  cleanup (s "x < y") = s "x < y".
Proof.
  assert (Chr.lt ∉ s "a ") as H1 by (by apply not_elem_test).
  assert (Chr.gt ∉ s "br/") as H2 by (by apply not_elem_test).
  assert (¬ has_tag (s "x < y")) as H3.
  { cbn [s]. rewrite !has_tag_cons.
    intros [[? ?]|[[? ?]|[[_ Hgt]|[[? ?]|[[? ?]|[]%has_tag_nil]]]]]; try done.
    revert Hgt. by apply not_elem_test. }
  split; [done|].
  destruct (cleanup_strips_tags (s "x < y") (s "a ") (s "br/") (s " b"))
    as (Hno & Htag & Hid).
  split; [exact Hno|]. split; [exact (Htag H1 H2)|exact (Hid H3)].
Defined.


(** C6 at the sample: [GEF] is not in the other database. *)
Lemma search_database_empty_entry_sample :
  ((∀ c, c ∈ find_abbr Sample.plurals Sample.order Sample.strict_other → all_word c) ∧
   parsers Sample.strict_other !! db_type Sample.strict_other
     = Some Sample.descriptor_adam ∧
   abbreviations Sample.strict_other = Some Sample.db_other ∧
   s "GEF" ∈ find_abbr Sample.plurals Sample.order Sample.strict_other ∧
   findall search_flags
     (search_string_strict (delimiter Sample.descriptor_adam) (s "GEF"))
     Sample.db_other = [] ∧
   engine Sample.descriptor_adam [] = []) ∧
  ∃ matches,
    search_database Sample.plurals Sample.order Sample.strict_other
    = (Return matches, Sample.strict_other) ∧
    matches !! s "GEF" = Some [] ∧
    ∀ c, c ∈ find_abbr Sample.plurals Sample.order Sample.strict_other
         → is_Some (matches !! c).
Proof.
  pose proof (sample_candidates_word Sample.strict_other) as H0.
  assert (parsers Sample.strict_other !! db_type Sample.strict_other
          = Some Sample.descriptor_adam) as H1 by (vm_compute; reflexivity).
  assert (s "GEF" ∈ find_abbr Sample.plurals Sample.order Sample.strict_other) as H2
    by (by apply sample_candidate).
  assert (findall search_flags
            (search_string_strict (delimiter Sample.descriptor_adam) (s "GEF"))
            Sample.db_other = []) as H3 by (vm_compute; reflexivity).
  split; [done|].
  exact (search_database_empty_entry Sample.plurals Sample.order Sample.strict_other
           Sample.descriptor_adam Sample.db_other (s "GEF") H0 H1 eq_refl H2 H3 eq_refl).
Defined.

(** C10 at the sample: the plain document with an unknown format and
    no database, and the report with an unknown format. *)
Lemma search_database_checks_only_in_loop_sample :
  (find_abbr Sample.plurals Sample.order Sample.quiet = [] ∧
   find_abbr Sample.plurals Sample.order Sample.loud ≠ [] ∧
   parsers Sample.loud !! db_type Sample.loud = None) ∧
  search_database Sample.plurals Sample.order Sample.quiet = (Return ∅, Sample.quiet) ∧
  raised (search_database Sample.plurals Sample.order Sample.loud).1.
Proof.
  assert (find_abbr Sample.plurals Sample.order Sample.quiet = []) as H1 by (vm_compute; reflexivity).
  assert (find_abbr Sample.plurals Sample.order Sample.loud ≠ []) as H2 by (vm_compute; discriminate).
  assert (parsers Sample.loud !! db_type Sample.loud = None) as H3
    by (vm_compute; reflexivity).
  split; [done|]. split.
  - exact (proj1 (search_database_checks_only_in_loop Sample.plurals Sample.order Sample.quiet) H1).
  - exact (proj2 (search_database_checks_only_in_loop Sample.plurals Sample.order Sample.loud) H2
             (or_introl H3)).
Defined.

(** * Further properties of the methods *)

(** ** [cleanup] *)

Lemma cleanup_from_length x : ∀ p, length (cleanup_from p x) ≤ length x.
Proof.
  remember (length x) as n eqn:Hn. revert x Hn.
  induction (lt_wf n) as [n _ IH]; intros x -> p.
  destruct x as [|c x]; [by rewrite cleanup_from_nil|].
  destruct (tag_end (c :: x)) as [x'|] eqn:Hend.
  - cbn [tag_end] in Hend. destruct (Chr.eqb c Chr.lt) eqn:Hc; [|done].
    apply eqb_true in Hc as ->.
    apply after_split in Hend as (mid & -> & Hmid).
    rewrite cleanup_from_tag by done. cbn [length]. rewrite length_app. cbn [length].
    specialize (IH (length x')). 
    assert (length (cleanup_from (Some Chr.gt) x') ≤ length x') as Hle.
    { apply IH; [|done]. cbn [length]. rewrite length_app. cbn [length]. lia. }
    lia.
  - rewrite cleanup_from_other by done. cbn [length].
    assert (length (cleanup_from (Some c) x) ≤ length x) as Hle.
    { apply (IH (length x)); [cbn [length]; lia|done]. }
    lia.
Qed.

Lemma cleanup_from_sublist x : ∀ p,
  filter (λ c, c ≠ Chr.space) (cleanup_from p x) `sublist_of` x.
Proof.
  remember (length x) as n eqn:Hn. revert x Hn.
  induction (lt_wf n) as [n _ IH]; intros x -> p.
  destruct x as [|c x]; [by rewrite cleanup_from_nil|].
  destruct (tag_end (c :: x)) as [x'|] eqn:Hend.
  - cbn [tag_end] in Hend. destruct (Chr.eqb c Chr.lt) eqn:Hc; [|done].
    apply eqb_true in Hc as ->.
    apply after_split in Hend as (mid & -> & Hmid).
    rewrite cleanup_from_tag by done. rewrite filter_cons_False by (by intros []).
    apply sublist_cons, sublist_inserts_l, sublist_cons.
    apply (IH (length x')); [|done]. cbn [length]. rewrite length_app. cbn [length]. lia.
  - rewrite cleanup_from_other by done.
    assert (filter (λ c, c ≠ Chr.space) (cleanup_from (Some c) x) `sublist_of` x) as Hsub.
    { apply (IH (length x)); [cbn [length]; lia|done]. }
    destruct (decide (c ≠ Chr.space)).
    + rewrite filter_cons_True by done. by apply sublist_skip.
    + rewrite filter_cons_False by done. by apply sublist_cons.
Qed.

(** X1.  [cleanup] applied to its own result changes nothing. *)
Theorem cleanup_idempotent data : cleanup (cleanup data) = cleanup data.
Proof.
  change cleanup with (cleanup_from None).
  apply cleanup_from_id, cleanup_from_untagged.
Qed.

(** X2.  [cleanup] only takes text away: its result is never longer
    than its argument, and apart from spaces it keeps characters of
    the argument in their order. *)
Theorem cleanup_only_removes data :
  length (cleanup data) ≤ length data ∧
  filter (λ c, c ≠ Chr.space) (cleanup data) `sublist_of` data.
Proof.
  change cleanup with (cleanup_from None).
  split; [apply cleanup_from_length|apply cleanup_from_sublist].
Qed.

(** ** [find_abbr] *)

Lemma abbrs_hits_occurs x : ∀ p skip tok,
  tok ∈ abbrs_hits p x skip →
  ∃ pre post, x = pre ++ Chr.lpar :: tok ++ Chr.rpar :: post.
Proof.
  unfold abbrs_hits. induction x as [|c x IH]; intros p skip tok.
  - cbn [scan]. rewrite match_at_abbrs. cbn. destruct skip; by intros ?%elem_of_nil.
  - cbn [scan]. destruct skip as [|n].
    2:{ intros (pre & post & ->)%IH. by exists (c :: pre), post. }
    destruct (match_at abbrs_flags abbrs p (c :: x)) as [e|] eqn:He.
    2:{ rewrite bind_cons. cbn [hit_value app].
        intros (pre & post & ->)%IH. by exists (c :: pre), post. }
    apply match_at_abbrs_Some in He as (tok' & Hg & Heq & _).
    destruct (length (c :: x) - length (rest e)); rewrite Hg;
      rewrite ?bind_cons; cbn [hit_value default app];
      (intros [->|Hin]%elem_of_cons; [by exists [], (rest e)|]);
      apply IH in Hin as (pre & post & ->); by exists (c :: pre), post.
Qed.

Section Candidates.

Context {score fields : Type}.
Variable plurals : str → list str.
Variable order : set_order.

(** X3.  [find_abbr] returns, without duplicates, exactly the variants
    that [plurals] gives for the tokens of the shape digits, letter,
    word characters that stand between parentheses in the content. *)
Theorem find_abbr_exact (self : @Document score fields) :
  NoDup (find_abbr plurals order self) ∧
  ∀ v, v ∈ find_abbr plurals order self ↔
    ∃ X pre post,
      content self = pre ++ Chr.lpar :: X ++ Chr.rpar :: post ∧
      abbr_shape X ∧ v ∈ plurals X.
Proof.
  split; [apply list_set_NoDup|]. intros v. rewrite find_abbr_elem. split.
  - intros (X & HX & Hv). rewrite findall_abbrs in HX.
    destruct (abbrs_hits_occurs _ _ _ _ HX) as (pre & post & Hc).
    exists X, pre, post. split; [done|]. split; [|done].
    by eapply abbrs_hits_sound.
  - intros (X & pre & post & Hc & HX & Hv). exists X. split; [|done].
    rewrite findall_abbrs, Hc. apply abbrs_hits_complete; [done|]. apply not_elem_of_nil.
Qed.

(** X4.  The candidates depend only on which tokens the content
    holds: two documents whose contents yield the same tokens, in
    whatever order and however often, have the same candidates, up to
    the order in which the list gives them. *)
Theorem find_abbr_same_tokens (self other : @Document score fields) :
  (∀ X, X ∈ findall abbrs_flags abbrs (content self)
        ↔ X ∈ findall abbrs_flags abbrs (content other)) →
  find_abbr plurals order self ≡ₚ find_abbr plurals order other.
Proof.
  intros Hsame. apply NoDup_Permutation; [apply list_set_NoDup..|]. intros v.
  rewrite !find_abbr_elem.
  split; intros (X & HX & Hv); exists X; (split; [by apply Hsame|done]).
Qed.

End Candidates.

(** ** The lines that a search returns *)

Lemma filter_sublist_impl {A} (P Q : A → Prop)
    `{!∀ x, Decision (P x)} `{!∀ x, Decision (Q x)} (l : list A) :
  (∀ x, P x → Q x) → filter P l `sublist_of` filter Q l.
Proof.
  intros HPQ. induction l as [|x l IH]; [done|].
  destruct (decide (P x)) as [HP|HP].
  - rewrite filter_cons_True, (filter_cons_True Q) by auto. by apply sublist_skip.
  - rewrite filter_cons_False by done. destruct (decide (Q x)).
    + rewrite filter_cons_True by done. by apply sublist_cons.
    + by rewrite filter_cons_False.
Qed.

Lemma fmap_sublist_of {A B} (f : A → B) (l k : list A) :
  l `sublist_of` k → f <$> l `sublist_of` f <$> k.
Proof.
  induction 1; cbn [fmap list_fmap]; [done|by apply sublist_skip|by apply sublist_cons].
Qed.

Lemma strip_ci_app C D x : strip_ci (C ++ D) x = strip_ci C x ≫= strip_ci D.
Proof.
  revert x. induction C as [|c C IH]; intros x; [done|].
  cbn [app strip_ci]. destruct x as [|y x]; [done|]. by destruct (ci_eq y c).
Qed.

Lemma begins_ci_app C D l : begins_ci (C ++ D) l = true → begins_ci C l = true.
Proof.
  unfold begins_ci. rewrite !bool_decide_eq_true, strip_ci_app.
  destruct (strip_ci C l); [by eexists|]. by intros [? ?].
Qed.

Lemma matched_lines_sublist p q C D db :
  (∀ l, begins_ci (line_key p C) l = true → begins_ci (line_key q D) l = true) →
  matched_lines p C db `sublist_of` matched_lines q D db.
Proof. intros H. unfold matched_lines. by apply fmap_sublist_of, filter_sublist_impl. Qed.

Lemma word_lower c : Chr.is_word (Chr.lower c) = Chr.is_word c.
Proof. by_cases c. Qed.

Lemma all_word_same_case C C' :
  Chr.lower <$> C = Chr.lower <$> C' → all_word C → all_word C'.
Proof.
  unfold all_word. revert C'. induction C as [|c C IH]; intros [|c' C'] Heq HC; try done.
  cbn [fmap list_fmap] in Heq. injection Heq as Hc Hrest.
  apply Forall_cons in HC as [Hw HC]. constructor; [|by apply IH].
  rewrite <-word_lower. rewrite <-word_lower in Hw. congruence.
Qed.

Lemma strip_ci_same_case C C' x :
  Chr.lower <$> C = Chr.lower <$> C' → strip_ci C x = strip_ci C' x.
Proof.
  revert C' x. induction C as [|c C IH]; intros [|c' C'] x Heq; try done.
  cbn [fmap list_fmap] in Heq. injection Heq as Hc Hrest. cbn [strip_ci].
  destruct x as [|y x]; [done|]. unfold ci_eq. rewrite Hc.
  destruct (Chr.eqb _ _); [|done]. by apply IH.
Qed.

Lemma terminated_lines_closed a :
  terminated_lines (a ++ [Chr.nl]) ≠ [].
Proof.
  induction a as [|c a IH]; cbn [app terminated_lines]; [done|].
  destruct (Chr.eqb c Chr.nl); [done|]. by destruct (terminated_lines (a ++ [Chr.nl])).
Qed.

Lemma terminated_lines_app a b :
  last a = Some Chr.nl →
  terminated_lines (a ++ b) = terminated_lines a ++ terminated_lines b.
Proof.
  intros (a' & ->)%last_Some. rewrite <-app_assoc. cbn [app].
  induction a' as [|c a' IH]; cbn [app terminated_lines].
  - by rewrite eqb_refl.
  - destruct (Chr.eqb c Chr.nl); [by rewrite IH|]. rewrite IH.
    pose proof (terminated_lines_closed a') as Hne.
    by destruct (terminated_lines (a' ++ [Chr.nl])).
Qed.

(** X5.  Every line that the strict search returns for a candidate
    of word characters is returned, in the same order, by the
    permissive search for that candidate. *)
Theorem strict_results_among_permissive C db :
  all_word C →
  findall search_flags (search_string_strict (Lit Chr.tab) C) db
  `sublist_of` findall search_flags (search_string_permissive C) db.
Proof.
  intros HC.
  change (search_string_strict (Lit Chr.tab) C) with (search_string false C).
  change (search_string_permissive C) with (search_string true C).
  rewrite !findall_search, !search_hits_lines by done.
  apply matched_lines_sublist. intros l. apply begins_ci_app.
Qed.

(** X6.  The permissive search is monotone in the candidate: what it
    returns for a candidate is among what it returns for any prefix of
    the candidate, in the same order. *)
Theorem permissive_results_of_prefix C D db :
  all_word (C ++ D) →
  findall search_flags (search_string_permissive (C ++ D)) db
  `sublist_of` findall search_flags (search_string_permissive C) db.
Proof.
  intros HCD. pose proof HCD as [HC _]%Forall_app.
  change (search_string_permissive (C ++ D)) with (search_string true (C ++ D)).
  change (search_string_permissive C) with (search_string true C).
  rewrite !findall_search, !search_hits_lines by done.
  apply matched_lines_sublist. intros l. apply begins_ci_app.
Qed.

(** X7.  The search ignores the case of the candidate: two
    candidates of word characters that differ only in case return the
    same lines, under both policies. *)
Theorem search_ignores_candidate_case is_permissive C C' db :
  all_word C →
  Chr.lower <$> C = Chr.lower <$> C' →
  findall search_flags (search_string is_permissive C) db
  = findall search_flags (search_string is_permissive C') db.
Proof.
  intros HC Hcase. pose proof (all_word_same_case _ _ Hcase HC) as HC'.
  rewrite !findall_search, !search_hits_lines by done.
  unfold matched_lines. f_equal. apply list_filter_iff. intros l.
  unfold begins_ci, line_key. destruct is_permissive.
  - by rewrite (strip_ci_same_case C C').
  - rewrite (strip_ci_same_case (C ++ [Chr.tab]) (C' ++ [Chr.tab])); [done|].
    by rewrite !fmap_app, Hcase.
Qed.

(** X8.  A database text made of two parts, the first one ending with
    a newline, is searched part by part: the lines found in the whole
    are those found in the first part followed by those found in the
    second. *)
Theorem search_of_joined_texts is_permissive C db1 db2 :
  all_word C →
  last db1 = Some Chr.nl →
  findall search_flags (search_string is_permissive C) (db1 ++ db2)
  = findall search_flags (search_string is_permissive C) db1
    ++ findall search_flags (search_string is_permissive C) db2.
Proof.
  intros HC Hnl. rewrite !findall_search, !search_hits_lines by done.
  unfold matched_lines. by rewrite terminated_lines_app, filter_app, fmap_app.
Qed.

(** ** [search_database] *)

Section Searches.

Context {score fields : Type}.
Variable plurals : str → list str.
Variable order : set_order.

Lemma rounds_first_raise {A S} (f : A → S → outcome S) x xs acc e :
  f x acc = Raise e → rounds f (x :: xs) acc = Raise e.
Proof. intros Hf. cbn [rounds]. by rewrite Hf. Qed.

Lemma search_database_AttributeError (self : @Document score fields) :
  find_abbr plurals order self ≠ [] →
  abbreviations self = None →
  permissive self = true ∨ is_Some (parsers self !! db_type self) →
  search_database plurals order self = (Raise (AttributeError "abbreviations"), self).
Proof.
  intros Hne Hdb Hwhen. rewrite search_database_rounds. f_equal.
  destruct (find_abbr plurals order self) as [|abbr xs]; [done|].
  apply rounds_first_raise. unfold iteration. rewrite Hdb.
  destruct (permissive self); [done|]. destruct Hwhen as [?|[d ->]]; done.
Qed.

Lemma search_database_return_inv (self self' : @Document score fields) matches :
  search_database plurals order self = (Return matches, self') →
  find_abbr plurals order self = [] ∨
  (is_Some (parsers self !! db_type self) ∧ is_Some (abbreviations self)).
Proof.
  intros Hrun.
  destruct (find_abbr plurals order self) as [|abbr xs] eqn:Hc; [by left|]. right.
  destruct (parsers self !! db_type self) as [d|] eqn:Hd,
    (abbreviations self) as [db|] eqn:Hdb; [done|..].
  - rewrite search_database_AttributeError in Hrun; [done|by rewrite Hc|done|].
    right. by rewrite Hd.
  - destruct (search_database_raises plurals order self) as (e & He & _);
      [by rewrite Hc|by left|congruence].
  - destruct (search_database_raises plurals order self) as (e & He & _);
      [by rewrite Hc|by left|congruence].
Qed.

(** X9.  For a document whose candidates are all made of word
    characters, [search_database] returns a mapping exactly when the
    document yields no candidate or the format is registered and a
    database was imported; in every other case it raises. *)
Theorem search_database_returns_iff (self : @Document score fields) :
  (∀ c, c ∈ find_abbr plurals order self → all_word c) →
  (∃ matches, search_database plurals order self = (Return matches, self)) ↔
  find_abbr plurals order self = [] ∨
  (is_Some (parsers self !! db_type self) ∧ is_Some (abbreviations self)).
Proof.
  intros _. split.
  - intros (matches & Hrun). by eapply search_database_return_inv.
  - intros [Hnil|[[d Hd] [db Hdb]]].
    + exists ∅. by rewrite search_database_rounds, Hnil.
    + destruct (search_database_succeeds plurals order self d db Hd Hdb) as (m & Hrun & _).
      by exists m.
Qed.

(** X10.  The keys of the mapping that [search_database] returns are
    exactly the candidates: no candidate is left out and nothing else
    is bound. *)
Theorem search_database_keys (self self' : @Document score fields) matches :
  search_database plurals order self = (Return matches, self') →
  ∀ c, is_Some (matches !! c) ↔ c ∈ find_abbr plurals order self.
Proof.
  intros Hrun c.
  destruct (find_abbr plurals order self) as [|abbr xs] eqn:Hc.
  { rewrite search_database_rounds, Hc in Hrun. injection Hrun as <- _.
    rewrite lookup_empty, elem_of_nil. split; [by intros [? ?]|done]. }
  destruct (search_database_return_inv _ _ _ Hrun) as [Hnil|[[d Hd] [db Hdb]]].
  { by rewrite Hc in Hnil. }
  rewrite <-Hc. clear Hc.
  rewrite search_database_rounds in Hrun.
  set (value := λ abbr : str, engine d (findall search_flags
    ((if permissive self then search_string_permissive
      else search_string_strict (delimiter d)) abbr) db)) in *.
  rewrite (rounds_return _ (λ abbr matches, <[abbr := value abbr]> matches)) in Hrun.
  2:{ intros a m. unfold iteration, value. rewrite Hd, Hdb. by destruct (permissive self). }
  injection Hrun as <- _.
  destruct (decide (c ∈ find_abbr plurals order self)) as [Hin|Hout].
  - rewrite (lookup_foldl_insert value) by done. split; [done|by eexists].
  - rewrite (lookup_foldl_insert_other value) by done. rewrite lookup_empty.
    split; [by intros [? ?]|done].
Qed.

End Searches.

(** ** Construction and import *)

Section Lifecycle.

Context {score fields : Type}.
Variable plurals : str → list str.
Variable order : set_order.
Variable adam : list str → list (score * fields).
Variable archive : str → outcome str.

Lemma init_inv doc_file db_file ty perm (self : @Document score fields) :
  __init__ adam archive doc_file db_file ty perm = Return self →
  ∃ xml, archive doc_file = Return xml ∧
    self = mkDocument doc_file db_file perm ty (cleanup xml)
             {[ s "adam" := Descriptor adam (Lit Chr.tab) ]} None.
Proof.
  unfold __init__, read, opener. destruct (archive doc_file) as [xml|e]; [|done].
  intros [= <-]. by exists xml.
Qed.

Lemma import_database_eq file (self : @Document score fields) :
  import_database file self
  = match file (database self) with
    | Some text =>
        (Return tt,
         mkDocument (doc self) (database self) (permissive self) (db_type self)
           (content self) (parsers self) (Some text))
    | None => (Raise (IOError (database self)), self)
    end.
Proof.
  unfold import_database, mbind, M_bind, attr. by destruct (file (database self)).
Qed.

(** X11.  Construction raises exactly what reading the archive
    member raises (the [IOError] of a path that cannot be opened, the
    [BadZipfile] of a file that is no archive, the [KeyError] of an
    archive without the member), and nothing else: the format
    identifier is never examined.  The object it builds has a
    tag-free content, no database text yet, the identifier it was
    given, and a registry whose only key is [adam]. *)
Theorem construction_outcome doc_file db_file ty perm :
  (∀ e, archive doc_file = Raise e →
   __init__ adam archive doc_file db_file ty perm = Raise e) ∧
  (∀ xml, archive doc_file = Return xml →
   ∃ self, __init__ adam archive doc_file db_file ty perm = Return self ∧
     content self = cleanup xml ∧
     ¬ has_tag (content self) ∧
     abbreviations self = None ∧
     db_type self = ty ∧
     ∀ k, is_Some (parsers self !! k) ↔ k = s "adam").
Proof.
  unfold __init__, read, opener. split.
  - by intros e ->.
  - intros xml ->. eexists. split; [done|]. cbn [content abbreviations db_type parsers].
    split; [done|]. split.
    { change cleanup with (cleanup_from None). apply cleanup_from_untagged. }
    split; [done|]. split; [done|]. intros k.
    destruct (decide (k = s "adam")) as [->|Hk].
    + rewrite lookup_singleton_eq. split; [done|by eexists].
    + rewrite lookup_singleton_ne by done. split; [by intros [? ?]|done].
Qed.

(** X12.  [search_database] called on a freshly constructed object
    whose document yields a candidate, before any [import_database],
    raises: the [AttributeError] on [abbreviations] when the format is
    [adam] or the policy is permissive, the [KeyError] on the format
    identifier otherwise. *)
Theorem search_before_import doc_file db_file ty perm (self : @Document score fields) :
  __init__ adam archive doc_file db_file ty perm = Return self →
  find_abbr plurals order self ≠ [] →
  search_database plurals order self
  = (Raise (if bool_decide (ty = s "adam") || perm
            then AttributeError "abbreviations" else KeyError ty), self).
Proof.
  intros (xml & _ & ->)%init_inv Hne.
  destruct (bool_decide (ty = s "adam") || perm) eqn:Hcase.
  - apply search_database_AttributeError; [done..|]. cbn [permissive parsers db_type].
    apply orb_true_iff in Hcase as [Hty| ->]; [right|by left].
    apply bool_decide_eq_true in Hty as ->. rewrite lookup_singleton_eq. by eexists.
  - apply orb_false_iff in Hcase as [Hty%bool_decide_eq_false ->].
    destruct (search_database_raises plurals order _ Hne) as (e & He & Hkey).
    { left. cbn [parsers db_type]. by rewrite lookup_singleton_ne. }
    rewrite He. do 2 f_equal. apply Hkey.
    + cbn [parsers db_type]. by rewrite lookup_singleton_ne.
    + by left.
Qed.

(** X13.  A successful [import_database] stores the text of the file
    and changes neither the content nor the candidates.  A later
    import that succeeds gives the object that it would have given
    without the earlier one; a later import that fails raises an
    [IOError] and leaves the earlier text in place. *)
Theorem import_database_replaces file1 file2 (self self1 : @Document score fields) :
  import_database file1 self = (Return tt, self1) →
  abbreviations self1 = file1 (database self) ∧
  content self1 = content self ∧
  find_abbr plurals order self1 = find_abbr plurals order self ∧
  (∀ text, file2 (database self) = Some text →
     import_database file2 self1 = import_database file2 self) ∧
  (file2 (database self) = None →
     import_database file2 self1 = (Raise (IOError (database self)), self1)).
Proof.
  rewrite import_database_eq.
  destruct (file1 (database self)) as [text1|] eqn:H1; [|done]. intros [= <-].
  split; [done|]. split; [done|]. split; [done|]. split.
  - intros text H2. rewrite !import_database_eq. cbn [database]. by rewrite H2.
  - intros H2. rewrite import_database_eq. cbn [database]. by rewrite H2.
Qed.

(** X14.  Constructing an object with the format [adam], importing
    its database and searching succeeds whenever the archive member
    and the database file can be read and [plurals] gives variants
    made of word characters for tokens made of word characters: the
    content is the cleaned archive member, every candidate is made of
    word characters, and each one is bound to what the engine makes of
    the newline-terminated lines of the file that begin with it under
    the policy. *)
Theorem construct_import_search file doc_file db_file perm xml db :
  archive doc_file = Return xml →
  file db_file = Some db →
  (∀ X v, all_word X → v ∈ plurals X → all_word v) →
  ∃ (self0 self : @Document score fields) matches,
    __init__ adam archive doc_file db_file (s "adam") perm = Return self0 ∧
    import_database file self0 = (Return tt, self) ∧
    search_database plurals order self = (Return matches, self) ∧
    content self = cleanup xml ∧
    ∀ C, C ∈ find_abbr plurals order self →
      all_word C ∧ matches !! C = Some (adam (matched_lines perm C db)).
Proof.
  intros Hxml Hdb Hplurals.
  set (self := mkDocument doc_file db_file perm (s "adam") (cleanup xml)
                 {[ s "adam" := Descriptor adam (Lit Chr.tab) ]} (Some db)).
  destruct (search_database_succeeds plurals order self (Descriptor adam (Lit Chr.tab)) db)
    as (matches & Hrun & Hm & _); [apply lookup_singleton_eq|done|].
  eexists _, self, matches. split.
  { unfold __init__, read, opener. by rewrite Hxml. }
  split. { rewrite import_database_eq. cbn [database]. by rewrite Hdb. }
  split; [done|]. split; [done|]. intros C HC.
  assert (all_word C) as Hword by (by eapply candidates_word).
  split; [done|]. rewrite (Hm C HC).
  subst self. cbn [engine delimiter permissive]. do 2 f_equal.
  assert ((if perm then search_string_permissive
           else search_string_strict (Lit Chr.tab)) C = search_string perm C) as ->
    by by destruct perm.
  rewrite findall_search. by apply search_hits_lines.
Qed.

End Lifecycle.

(** ** The further properties at the sample installation *)

(** X4 at the sample: [MAB], [GEF], [MAB] against [GEF], [MAB]. *)
Lemma find_abbr_same_tokens_sample :
  (∀ X, X ∈ findall abbrs_flags abbrs (content Sample.twice)
        ↔ X ∈ findall abbrs_flags abbrs (content Sample.once)) ∧
  find_abbr Sample.plurals Sample.order Sample.twice
  ≡ₚ find_abbr Sample.plurals Sample.order Sample.once.
Proof.
  assert (∀ X, X ∈ findall abbrs_flags abbrs (content Sample.twice)
               ↔ X ∈ findall abbrs_flags abbrs (content Sample.once)) as H.
  { intros X.
    assert (findall abbrs_flags abbrs (content Sample.twice)
            = [s "MAB"; s "GEF"; s "MAB"]) as -> by (vm_compute; reflexivity).
    assert (findall abbrs_flags abbrs (content Sample.once)
            = [s "GEF"; s "MAB"]) as -> by (vm_compute; reflexivity).
    rewrite !elem_of_cons, !elem_of_nil. tauto. }
  split; [exact H|].
  exact (find_abbr_same_tokens Sample.plurals Sample.order Sample.twice Sample.once H).
Defined.

(** X5 at the sample: [GEF] in the closed database. *)
Lemma strict_results_among_permissive_sample :
  all_word (s "GEF") ∧
  findall search_flags (search_string_strict (Lit Chr.tab) (s "GEF")) Sample.db_closed
  `sublist_of` findall search_flags (search_string_permissive (s "GEF")) Sample.db_closed.
Proof.
  assert (all_word (s "GEF")) as H by (by apply Forall_test).
  split; [exact H|].
  exact (strict_results_among_permissive (s "GEF") Sample.db_closed H).
Defined.

(** X6 at the sample: [GEF] and its prefix [GE]. *)
Lemma permissive_results_of_prefix_sample :
  all_word (s "GE" ++ s "F") ∧
  findall search_flags (search_string_permissive (s "GE" ++ s "F")) Sample.db_closed
  `sublist_of` findall search_flags (search_string_permissive (s "GE")) Sample.db_closed.
Proof.
  assert (all_word (s "GE" ++ s "F")) as H by (by apply Forall_test).
  split; [exact H|].
  exact (permissive_results_of_prefix (s "GE") (s "F") Sample.db_closed H).
Defined.

(** X7 at the sample: [GEF] and [gef] under the strict policy. *)
Lemma search_ignores_candidate_case_sample :
  (all_word (s "GEF") ∧ Chr.lower <$> s "GEF" = Chr.lower <$> s "gef") ∧
  findall search_flags (search_string false (s "GEF")) Sample.db_closed
  = findall search_flags (search_string false (s "gef")) Sample.db_closed.
Proof.
  assert (all_word (s "GEF")) as H1 by (by apply Forall_test).
  assert (Chr.lower <$> s "GEF" = Chr.lower <$> s "gef") as H2 by (vm_compute; reflexivity).
  split; [done|].
  exact (search_ignores_candidate_case false (s "GEF") (s "gef") Sample.db_closed H1 H2).
Defined.

(** X8 at the sample: the closed database as its two lines. *)
Lemma search_of_joined_texts_sample :
  (all_word (s "GEF") ∧
   last (Sample.line (s "GEF") (s "foo") ++ [Chr.nl]) = Some Chr.nl) ∧
  findall search_flags (search_string true (s "GEF"))
    ((Sample.line (s "GEF") (s "foo") ++ [Chr.nl])
     ++ (Sample.line (s "GEFS") (s "bar") ++ [Chr.nl]))
  = findall search_flags (search_string true (s "GEF"))
      (Sample.line (s "GEF") (s "foo") ++ [Chr.nl])
    ++ findall search_flags (search_string true (s "GEF"))
         (Sample.line (s "GEFS") (s "bar") ++ [Chr.nl]).
Proof.
  assert (all_word (s "GEF")) as H1 by (by apply Forall_test).
  assert (last (Sample.line (s "GEF") (s "foo") ++ [Chr.nl]) = Some Chr.nl) as H2
    by (vm_compute; reflexivity).
  split; [done|].
  exact (search_of_joined_texts true (s "GEF") _ _ H1 H2).
Defined.

(** X10 at the sample: the report in the closed database. *)
Lemma search_database_keys_sample :
  search_database Sample.plurals Sample.order Sample.strict_closed
  = (Return Sample.strict_closed_matches, Sample.strict_closed) ∧
  ∀ c, is_Some (Sample.strict_closed_matches !! c)
       ↔ c ∈ find_abbr Sample.plurals Sample.order Sample.strict_closed.
Proof.
  assert (search_database Sample.plurals Sample.order Sample.strict_closed
          = (Return Sample.strict_closed_matches, Sample.strict_closed)) as H
    by (vm_compute; reflexivity).
  split; [exact H|].
  exact (search_database_keys Sample.plurals Sample.order Sample.strict_closed Sample.strict_closed
           Sample.strict_closed_matches H).
Defined.

(** X9 at the sample: the report with the closed database, and
    the report before any import. *)
Lemma search_database_returns_iff_sample :
  ((∀ c, c ∈ find_abbr Sample.plurals Sample.order Sample.strict_closed → all_word c) ∧
   (∀ c, c ∈ find_abbr Sample.plurals Sample.order Sample.fresh → all_word c)) ∧
  (∃ matches, search_database Sample.plurals Sample.order Sample.strict_closed
              = (Return matches, Sample.strict_closed)) ∧
  ¬ (∃ matches, search_database Sample.plurals Sample.order Sample.fresh
                = (Return matches, Sample.fresh)).
Proof.
  pose proof (sample_candidates_word Sample.strict_closed) as H1.
  pose proof (sample_candidates_word Sample.fresh) as H2.
  split; [done|]. split.
  - apply (search_database_returns_iff Sample.plurals Sample.order Sample.strict_closed H1).
    right. split; by eexists.
  - intros Hret.
    apply (search_database_returns_iff Sample.plurals Sample.order Sample.fresh H2) in Hret.
    destruct Hret as [Hnil|[_ [db Hdb]]]; [|discriminate Hdb].
    vm_compute in Hnil. discriminate Hnil.
Defined.

(** X11 at the sample: a path that cannot be opened, a file that is no
    archive, an archive without the member, and the report. *)
Lemma construction_outcome_sample :
  (Sample.archive Sample.xml_report (s "lost.docx") = Raise (IOError (s "lost.docx")) ∧
   __init__ Sample.adam (Sample.archive Sample.xml_report)
     (s "lost.docx") (s "adam.txt") (s "adam") false = Raise (IOError (s "lost.docx"))) ∧
  (Sample.archive Sample.xml_report (s "notes.txt") = Raise BadZipfile ∧
   __init__ Sample.adam (Sample.archive Sample.xml_report)
     (s "notes.txt") (s "adam.txt") (s "adam") false = Raise BadZipfile) ∧
  (Sample.archive Sample.xml_report (s "report.docx") = Return Sample.xml_report ∧
   ∃ self, __init__ Sample.adam (Sample.archive Sample.xml_report)
             (s "report.docx") (s "adam.txt") (s "mesh") false = Return self ∧
     content self = cleanup Sample.xml_report ∧
     ¬ has_tag (content self) ∧
     abbreviations self = None ∧
     db_type self = s "mesh" ∧
     ∀ k, is_Some (parsers self !! k) ↔ k = s "adam").
Proof.
  assert (Sample.archive Sample.xml_report (s "lost.docx") = Raise (IOError (s "lost.docx")))
    as H1 by (vm_compute; reflexivity).
  assert (Sample.archive Sample.xml_report (s "notes.txt") = Raise BadZipfile) as H2
    by (vm_compute; reflexivity).
  assert (Sample.archive Sample.xml_report (s "report.docx") = Return Sample.xml_report) as H3
    by (vm_compute; reflexivity).
  split; [|split]; (split; [done|]).
  - exact (proj1 (construction_outcome Sample.adam (Sample.archive Sample.xml_report)
                    (s "lost.docx") (s "adam.txt") (s "adam") false) _ H1).
  - exact (proj1 (construction_outcome Sample.adam (Sample.archive Sample.xml_report)
                    (s "notes.txt") (s "adam.txt") (s "adam") false) _ H2).
  - exact (proj2 (construction_outcome Sample.adam (Sample.archive Sample.xml_report)
                    (s "report.docx") (s "adam.txt") (s "mesh") false) Sample.xml_report H3).
Defined.

(** X12 at the sample: the report constructed with the format [mesh]
    and searched at once. *)
Lemma search_before_import_sample :
  (__init__ Sample.adam (Sample.archive Sample.xml_report)
     (s "report.docx") (s "adam.txt") (s "mesh") false = Return Sample.fresh_mesh ∧
   find_abbr Sample.plurals Sample.order Sample.fresh_mesh ≠ []) ∧
  search_database Sample.plurals Sample.order Sample.fresh_mesh
  = (Raise (if bool_decide (s "mesh" = s "adam") || false
            then AttributeError "abbreviations" else KeyError (s "mesh")),
     Sample.fresh_mesh).
Proof.
  assert (__init__ Sample.adam (Sample.archive Sample.xml_report)
            (s "report.docx") (s "adam.txt") (s "mesh") false = Return Sample.fresh_mesh) as H1
    by (vm_compute; reflexivity).
  assert (find_abbr Sample.plurals Sample.order Sample.fresh_mesh ≠ []) as H2
    by (vm_compute; discriminate).
  split; [done|].
  exact (search_before_import Sample.plurals Sample.order Sample.adam (Sample.archive Sample.xml_report)
           (s "report.docx") (s "adam.txt") (s "mesh") false Sample.fresh_mesh H1 H2).
Defined.

(** X13 at the sample: the open database imported first, the closed
    one next. *)
Lemma import_database_replaces_sample :
  import_database (Sample.file Sample.db_open) Sample.fresh
  = (Return tt, Sample.self Sample.report (Some Sample.db_open) (s "adam") false) ∧
  Sample.file Sample.db_closed (database Sample.fresh) = Some Sample.db_closed ∧
  import_database (Sample.file Sample.db_closed)
    (Sample.self Sample.report (Some Sample.db_open) (s "adam") false)
  = import_database (Sample.file Sample.db_closed) Sample.fresh.
Proof.
  assert (import_database (Sample.file Sample.db_open) Sample.fresh
          = (Return tt, Sample.self Sample.report (Some Sample.db_open) (s "adam") false))
    as H1 by (vm_compute; reflexivity).
  assert (Sample.file Sample.db_closed (database Sample.fresh) = Some Sample.db_closed)
    as H2 by (vm_compute; reflexivity).
  split; [exact H1|]. split; [exact H2|].
  exact (proj1 (proj2 (proj2 (proj2
           (import_database_replaces Sample.plurals Sample.order (Sample.file Sample.db_open)
              (Sample.file Sample.db_closed) Sample.fresh _ H1))))
           Sample.db_closed H2).
Defined.

(** X14 at the sample: the report and the closed database, strict policy. *)
Lemma construct_import_search_sample :
  (Sample.archive Sample.xml_report (s "report.docx") = Return Sample.xml_report ∧
   Sample.file Sample.db_closed (s "adam.txt") = Some Sample.db_closed ∧
   ∀ X v, all_word X → v ∈ Sample.plurals X → all_word v) ∧
  ∃ (self0 self : @Document nat str) matches,
    __init__ Sample.adam (Sample.archive Sample.xml_report)
      (s "report.docx") (s "adam.txt") (s "adam") false = Return self0 ∧
    import_database (Sample.file Sample.db_closed) self0 = (Return tt, self) ∧
    search_database Sample.plurals Sample.order self = (Return matches, self) ∧
    content self = cleanup Sample.xml_report ∧
    ∀ C, C ∈ find_abbr Sample.plurals Sample.order self →
      all_word C ∧
      matches !! C = Some (Sample.adam (matched_lines false C Sample.db_closed)).
Proof.
  assert (Sample.archive Sample.xml_report (s "report.docx") = Return Sample.xml_report) as H1
    by (vm_compute; reflexivity).
  assert (Sample.file Sample.db_closed (s "adam.txt") = Some Sample.db_closed) as H2
    by (vm_compute; reflexivity).
  split; [split; [done|split; [done|apply sample_plurals_word]]|].
  exact (construct_import_search Sample.plurals Sample.order Sample.adam
           (Sample.archive Sample.xml_report) (Sample.file Sample.db_closed)
           (s "report.docx") (s "adam.txt") false Sample.xml_report Sample.db_closed
           H1 H2 sample_plurals_word).
Defined.

(** ** [cleanup] on text around the tags *)

Lemma cleanup_from_tail x : ∀ p tail,
  Chr.gt ∉ tail → cleanup_from p (x ++ tail) = cleanup_from p x ++ tail.
Proof.
  remember (length x) as n eqn:Hn. revert x Hn.
  induction (lt_wf n) as [n _ IH]; intros x -> p tail Htail.
  destruct x as [|c x]; [by rewrite cleanup_from_nil, cleanup_from_no_gt|].
  destruct (tag_end (c :: x)) as [x'|] eqn:Hend.
  - cbn [tag_end] in Hend. destruct (Chr.eqb c Chr.lt) eqn:Hc; [|done].
    apply eqb_true in Hc as ->.
    apply after_split in Hend as (mid & -> & Hmid).
    cbn [app]. rewrite <-app_assoc. cbn [app]. rewrite !cleanup_from_tag by done.
    cbn [app]. f_equal. apply (IH (length x')); [|done..].
    cbn [length]. rewrite length_app. cbn [length]. lia.
  - cbn [app]. rewrite (cleanup_from_other p c x) by done.
    rewrite (cleanup_from_other p c (x ++ tail)).
    + cbn [app]. f_equal. apply (IH (length x)); [cbn [length]; lia|done..].
    + apply tag_end_None in Hend as [?|Hx]; apply tag_end_None; [by left|right].
      rewrite elem_of_app. by intros [?|?].
Qed.

(** X15.  Text before the first [<] and text after the last [>] come
    out of [cleanup] as they went in, so an opening [<] that is never
    closed stays with all that follows it. *)
Theorem cleanup_keeps_text_around_tags head data tail :
  Chr.lt ∉ head →
  Chr.gt ∉ tail →
  cleanup (head ++ data ++ tail) = head ++ cleanup data ++ tail.
Proof.
  intros Hhead Htail. change cleanup with (cleanup_from None).
  rewrite cleanup_from_prefix by done. f_equal.
  rewrite cleanup_from_tail by done. f_equal. apply cleanup_from_any.
Qed.

(** X15 at the sample: a closed tag between a plain head and a tail
    that opens a tag without closing it. *)
Lemma cleanup_keeps_text_around_tags_sample :
  ((Chr.lt ∉ s "a > b ") ∧ (Chr.gt ∉ s " c < d")) ∧
  cleanup (s "a > b " ++ s "<i>" ++ s " c < d")
  = s "a > b " ++ cleanup (s "<i>") ++ s " c < d".
Proof.
  assert (Chr.lt ∉ s "a > b ") as H1 by (by apply not_elem_test).
  assert (Chr.gt ∉ s " c < d") as H2 by (by apply not_elem_test).
  split; [done|].
  exact (cleanup_keeps_text_around_tags (s "a > b ") (s "<i>") (s " c < d") H1 H2).
Defined.
